(** * Portfolio AI backend (server.js): memory buffer, sanitizer,
      structure enforcer and the /chat handler.

    The program is a small Express server.  This development embeds the
    functions of [src/server.js] shallowly:

    - a JavaScript string is the list of its UTF-16 code units;
    - the regular expressions of the source are run by a small
      backtracking matcher written in continuation style, the way the
      ECMAScript matcher is specified (lazy and greedy quantifiers keep
      their priorities);
    - the module-level array [chatMemory] is explicit state, threaded
      through the handler by a state-and-exception monad;
    - the completion provider is an oracle passed to the handler, and every
      invocation is recorded in a log next to the memory.

    The earlier revision of the handler found in [src/unnamed/part_000]
    is kept in [Module Part000]. *)

From Stdlib Require Import String Ascii List NArith ZArith Lia Bool.
Import ListNotations.

Set Implicit Arguments.

(* ================================================================= *)
(** ** JavaScript strings *)

(** A UTF-16 code unit. *)
Definition char16 := N.

(** A JavaScript string: its sequence of code units. *)
Definition jsstring := list char16.

(** Source literals that are plain ASCII are written as Rocq strings. *)
Fixpoint lit (s : string) : jsstring :=
  match s with
  | EmptyString => []
  | String a s' => N_of_ascii a :: lit s'
  end.

Definition LF : char16 := 10%N.

(** [!text] on a string: only the empty string is falsy. *)
Definition is_empty (s : jsstring) : bool :=
  match s with [] => true | _ :: _ => false end.

(** [pat] is a prefix of [s]; gives what follows it. *)
Fixpoint strip_prefix (pat s : jsstring) : option jsstring :=
  match pat with
  | [] => Some s
  | p :: pat' =>
      match s with
      | c :: s' => if N.eqb p c then strip_prefix pat' s' else None
      | [] => None
      end
  end.

(** [String.prototype.includes]: some position of [s] starts with [pat]. *)
Fixpoint includes (s pat : jsstring) : bool :=
  match strip_prefix pat s with
  | Some _ => true
  | None => match s with
            | [] => false
            | _ :: s' => includes s' pat
            end
  end.

(** WhiteSpace and LineTerminator code units: what [\s] matches and what
    [trim] removes (TAB, LF, VT, FF, CR, SP, NBSP, U+1680, U+2000..U+200A,
    LS, PS, U+202F, U+205F, U+3000, ZWNBSP). *)
Definition is_space (c : char16) : bool :=
  ((9 <=? c) && (c <=? 13) || (c =? 32) || (c =? 160) || (c =? 5760)
   || (8192 <=? c) && (c <=? 8202) || (c =? 8232) || (c =? 8233)
   || (c =? 8239) || (c =? 8287) || (c =? 12288) || (c =? 65279))%N.

(** LineTerminator code units: LF, CR, LS, PS. *)
Definition is_line_terminator (c : char16) : bool :=
  ((c =? 10) || (c =? 13) || (c =? 8232) || (c =? 8233))%N.

Fixpoint drop_while (f : char16 -> bool) (s : jsstring) : jsstring :=
  match s with
  | [] => []
  | c :: s' => if f c then drop_while f s' else s
  end.

(** [String.prototype.trim]. *)
Definition trim (s : jsstring) : jsstring :=
  rev (drop_while is_space (rev (drop_while is_space s))).

(* ================================================================= *)
(** ** Regular expressions of the source *)

(** The patterns of the source are sequences of one-character classes,
    lazy stars over a class ([.*?]) and greedy pluses over a class
    ([\s+]). *)
Inductive item : Type :=
| One (f : char16 -> bool)
| LazyStar (f : char16 -> bool)
| GreedyPlus (f : char16 -> bool).

Definition regex := list item.

(** [f*?] followed by the continuation [k]: the continuation is tried
    first, one more character is consumed only when it fails. *)
Fixpoint lazy_star (f : char16 -> bool) (k : jsstring -> option nat)
    (s : jsstring) : option nat :=
  match k s with
  | Some n => Some n
  | None =>
      match s with
      | c :: s' => if f c then option_map S (lazy_star f k s') else None
      | [] => None
      end
  end.

(** [f+] followed by [k]: one character, then as many more as possible;
    the continuation is tried at the longest run first. *)
Fixpoint greedy_plus (f : char16 -> bool) (k : jsstring -> option nat)
    (s : jsstring) : option nat :=
  match s with
  | c :: s' =>
      if f c then
        match greedy_plus f k s' with
        | Some n => Some (S n)
        | None => option_map S (k s')
        end
      else None
  | [] => None
  end.

(** Length of the match of [re] anchored at the start of [s], chosen by
    the backtracking priorities of the ECMAScript matcher. *)
Fixpoint match_len (re : regex) (s : jsstring) : option nat :=
  match re with
  | [] => Some 0
  | One f :: re' =>
      match s with
      | c :: s' => if f c then option_map S (match_len re' s') else None
      | [] => None
      end
  | LazyStar f :: re' => lazy_star f (match_len re') s
  | GreedyPlus f :: re' => greedy_plus f (match_len re') s
  end.

(** [s.replace(re, "")] for a global [re]: matches are looked for from
    left to right, each search resuming where the previous match ended;
    [skip] counts the characters of the current match still to be
    dropped.  An empty match replaces nothing and the scan moves on. *)
Fixpoint replace_go (re : regex) (s : jsstring) (skip : nat) : jsstring :=
  match s with
  | [] => []
  | c :: s' =>
      match skip with
      | S k => replace_go re s' k
      | O =>
          match match_len re s with
          | Some (S n) => replace_go re s' n
          | _ => c :: replace_go re s' 0
          end
      end
  end.

Definition replace_all (re : regex) (s : jsstring) : jsstring :=
  replace_go re s 0.

(** [s.split(re)] for a non-empty [s]: [acc] is the current piece,
    reversed; a match that is empty at the start of a piece is skipped,
    as in the SplitMatcher loop. *)
Fixpoint split_go (re : regex) (s : jsstring) (skip : nat)
    (acc : jsstring) : list jsstring :=
  match s with
  | [] => [rev acc]
  | c :: s' =>
      match skip with
      | S k => split_go re s' k acc
      | O =>
          match match_len re s with
          | Some (S n) => rev acc :: split_go re s' n []
          | Some O =>
              match acc with
              | [] => split_go re s' 0 [c]
              | _ :: _ => rev acc :: split_go re s' 0 [c]
              end
          | None => split_go re s' 0 (c :: acc)
          end
      end
  end.

Definition split (re : regex) (s : jsstring) : list jsstring :=
  match s with
  | [] => match match_len re [] with Some _ => [] | None => [[]] end
  | _ :: _ => split_go re s 0 []
  end.

(** Canonicalize of a case-insensitive, non-unicode pattern, on the ASCII
    range: a lower-case letter becomes its upper-case form.  A code unit
    above 127 never canonicalizes to an ASCII one, so it is left alone:
    all that is compared against are the ASCII characters of the source
    patterns. *)
Definition canonicalize (c : char16) : char16 :=
  if ((97 <=? c) && (c <=? 122))%N then (c - 32)%N else c.

Definition ci (p : char16) : char16 -> bool :=
  fun c => N.eqb (canonicalize c) (canonicalize p).

(** [.] without the s flag. *)
Definition dot (c : char16) : bool := negb (is_line_terminator c).

Definition lt_char : char16 := 60%N.
Definition gt_char : char16 := 62%N.

(** A literal of a pattern with the i flag. *)
Definition literal_ci (s : jsstring) : regex := map (fun p => One (ci p)) s.

Definition open_tag : jsstring := lit "<script".
Definition close_tag : jsstring := lit "</script>".

(** [/<script.*?>.*?<\/script>/gi] *)
Definition script_re : regex :=
  literal_ci open_tag
  ++ [LazyStar dot; One (ci gt_char); LazyStar dot]
  ++ literal_ci close_tag.

(** [/[<>]/g] *)
Definition is_angle (c : char16) : bool := N.eqb c lt_char || N.eqb c gt_char.

Definition angle_re : regex := [One is_angle].

(** [/[.?!]\s+/] *)
Definition is_sentence_end (c : char16) : bool :=
  (N.eqb c 46 || N.eqb c 63 || N.eqb c 33)%N.

Definition sentence_re : regex := [One is_sentence_end; GreedyPlus is_space].

(* ================================================================= *)
(** ** 6. Basic input sanitization *)

(** [sanitize(text)] on a string argument. *)
Definition sanitize (text : jsstring) : jsstring :=
  trim (replace_all angle_re (replace_all script_re text)).

(* ================================================================= *)
(** ** 5. Response quality enforcer *)

(** ["## \u{1F4CC} Response\n\n"]: the pushpin is a surrogate pair. *)
Definition heading : jsstring :=
  lit "## " ++ [55357; 56524]%N ++ lit " Response" ++ [LF; LF].

Definition bullet (line : jsstring) : jsstring :=
  lit "- " ++ trim line ++ [LF].

(** The [for ... of] loop appending one bullet per line to [output]. *)
Fixpoint append_bullets (output : jsstring) (lines : list jsstring)
  : jsstring :=
  match lines with
  | [] => output
  | line :: rest => append_bullets (output ++ bullet line) rest
  end.

Definition enforceMarkdownStructure (text : jsstring) : jsstring :=
  if is_empty text then []
  else
    let structured :=
      includes text (lit "##") || includes text (lit "- ")
      || includes text (lit "**") in
    if structured then text
    else
      let lines := filter (fun l => negb (is_empty l))
                          (split sentence_re text) in
      append_bullets heading lines.

(* ================================================================= *)
(** ** 4. In-memory session memory *)

(** The role strings that occur in the source. *)
Inductive Role : Type := system | user | assistant.

(** An element of [chatMemory] and of the outbound [messages]. *)
Record ChatTurn : Type := mkTurn { role : Role; content : jsstring }.

Definition MAX_MEMORY_MESSAGES : nat := 6.

(** [pushToMemory(role, content)] as a transformer of [chatMemory]:
    [push] at the back, then one [shift] when the array got longer than
    the maximum. *)
Definition pushToMemory (role : Role) (content : jsstring)
    (chatMemory : list ChatTurn) : list ChatTurn :=
  let chatMemory := chatMemory ++ [mkTurn role content] in
  if MAX_MEMORY_MESSAGES <? length chatMemory then tl chatMemory
  else chatMemory.

(** A sequence of calls, run from a given buffer. *)
Definition push_all (calls : list (Role * jsstring))
    (chatMemory : list ChatTurn) : list ChatTurn :=
  fold_left (fun m c => pushToMemory (fst c) (snd c) m) calls chatMemory.

(* ================================================================= *)
(** ** Values of the request body and of the provider's answer *)

(** A value found in a parsed JSON body.  [JsNumber] carries an integer:
    a fractional number is truthy and not a string, like any non-zero
    integer.  [JsObject] stands for objects and arrays: truthy, and
    without a callable [replace]. *)
Inductive JsValue : Type :=
| JsUndefined
| JsNull
| JsBool (b : bool)
| JsNumber (n : Z)
| JsString (s : jsstring)
| JsObject.

(** ToBoolean. *)
Definition truthy (v : JsValue) : bool :=
  match v with
  | JsUndefined | JsNull => false
  | JsBool b => b
  | JsNumber n => negb (Z.eqb n 0)
  | JsString s => negb (is_empty s)
  | JsObject => true
  end.

(** [typeof v === "string"]. *)
Definition is_string (v : JsValue) : bool :=
  match v with JsString _ => true | _ => false end.

Module Req.
(** [req.body] after [express.json]: the two fields the handler
    reads; a field that is missing reads as [JsUndefined]. *)
Record Body : Type := mkBody { message : JsValue; system : JsValue }.

(** [body = None]: [req.body] is undefined. *)
Record Request : Type := mkRequest { body : option Body }.
End Req.

Module Groq.
(** The part of a chat completion the handler looks at.  [None] is an
    absent (undefined or null) property. *)
Record Message : Type := mkMessage { content : option jsstring }.
Record Choice : Type := mkChoice { message : option Message }.
Record Completion : Type := mkCompletion { choices : option (list Choice) }.

(** What awaiting [groq.chat.completions.create] gives. *)
Inductive Result : Type :=
| Rejects
| Resolves (completion : option Completion).
End Groq.

(** The provider: its answer to an outbound message list.  (Model name
    and sampling parameters are constants of the call.) *)
Definition Provider := list ChatTurn -> Groq.Result.

Definition opt_bind {A B} (o : option A) (f : A -> option B) : option B :=
  match o with Some a => f a | None => None end.

(** [completion?.choices?.[0]?.message?.content] *)
Definition first_content (completion : option Groq.Completion)
  : option jsstring :=
  opt_bind completion (fun c =>
  opt_bind (Groq.choices c) (fun cs =>
  opt_bind (nth_error cs 0) (fun ch =>
  opt_bind (Groq.message ch) Groq.content))).

(** [v || d] where [v] is an optional string: an absent value and the
    empty string are both falsy. *)
Definition or_else (v : option jsstring) (d : jsstring) : jsstring :=
  match v with
  | Some s => if is_empty s then d else s
  | None => d
  end.

(** U+26A0 U+FE0F, the warning sign of the source literals. *)
Definition warning_sign : jsstring := [9888; 65039]%N.

Definition invalid_request_reply : jsstring :=
  lit "## " ++ warning_sign ++ lit " Invalid Request" ++ [LF]
  ++ lit "- Message missing or invalid".

Definition empty_response_reply : jsstring :=
  lit "## " ++ warning_sign ++ lit " AI Error" ++ [LF]
  ++ lit "- Empty response received".

(** The template literal of the [catch] block (U+274C is the cross). *)
Definition server_error_reply : jsstring :=
  [LF] ++ lit "## " ++ [10060%N] ++ lit " Server Error" ++ [LF]
  ++ lit "- AI backend temporarily unavailable" ++ [LF]
  ++ lit "- Please click **Retry**" ++ [LF] ++ lit "      ".

Record Response : Type := mkResponse { status : nat; reply : jsstring }.

(* ================================================================= *)
(** ** The handler's effects *)

(** The process state a request can touch: the shared buffer, and the
    log of the message lists sent to the provider, oldest first. *)
Record Server : Type := mkServer {
  chatMemory : list ChatTurn;
  providerCalls : list (list ChatTurn)
}.

Inductive outcome (A : Type) : Type :=
| Returned (a : A)
| Thrown.
Arguments Thrown {A}.

(** Computations that read and write the server state and may throw. *)
Definition M (A : Type) : Type := Server -> outcome A * Server.

Definition ret {A} (a : A) : M A := fun st => (Returned a, st).

Definition bind {A B} (m : M A) (f : A -> M B) : M B :=
  fun st =>
    match m st with
    | (Returned a, st') => f a st'
    | (Thrown, st') => (Thrown, st')
    end.

Definition throw {A} : M A := fun st => (Thrown, st).

(** [try { body } catch (error) { handler }]: the state changes made
    before the throw stay. *)
Definition try_catch {A} (body handler : M A) : M A :=
  fun st =>
    match body st with
    | (Returned a, st') => (Returned a, st')
    | (Thrown, st') => handler st'
    end.

Notation "x <- m ;; k" := (bind m (fun x => k))
  (at level 61, m at next level, right associativity).
Notation "m ;;; k" := (bind m (fun _ => k))
  (at level 61, right associativity).

Definition push (role : Role) (content : jsstring) : M unit :=
  fun st => (Returned tt,
             mkServer (pushToMemory role content (chatMemory st))
                      (providerCalls st)).

Definition read_memory : M (list ChatTurn) :=
  fun st => (Returned (chatMemory st), st).

(** [await groq.chat.completions.create({..., messages})]: the call is
    logged; a rejected promise throws at the [await]. *)
Definition create (groq : Provider) (messages : list ChatTurn)
  : M (option Groq.Completion) :=
  fun st =>
    let st' := mkServer (chatMemory st) (providerCalls st ++ [messages]) in
    match groq messages with
    | Groq.Resolves completion => (Returned completion, st')
    | Groq.Rejects => (Thrown, st')
    end.

(** [sanitize(v)] on an arbitrary value: [undefined] takes the default
    parameter, a string is cleaned, anything else has no [replace]
    method and the call throws a TypeError. *)
Definition sanitize_value (v : JsValue) : M jsstring :=
  match v with
  | JsUndefined => ret (sanitize [])
  | JsString s => ret (sanitize s)
  | _ => throw
  end.

(* ================================================================= *)
(** ** 8. Main chat endpoint *)

(** The outbound list: the system entry when [systemPrompt] is truthy
    (neither null nor empty), then a copy of [chatMemory]. *)
Definition build_messages (systemPrompt : option jsstring)
    (chatMemory : list ChatTurn) : list ChatTurn :=
  (match systemPrompt with
   | Some s => if is_empty s then [] else [mkTurn system s]
   | None => []
   end) ++ chatMemory.

(** [req.body?.field]: undefined when there is no body. *)
Definition body_field (field : Req.Body -> JsValue) (req : Req.Request)
  : JsValue :=
  match Req.body req with
  | Some b => field b
  | None => JsUndefined
  end.

Definition handleChat (groq : Provider) (req : Req.Request) : M Response :=
  try_catch
    (let userMessageRaw := body_field Req.message req in
     let systemPromptRaw := body_field Req.system req in
     if negb (truthy userMessageRaw) || negb (is_string userMessageRaw)
     then ret (mkResponse 400 invalid_request_reply)
     else
       userMessage <- sanitize_value userMessageRaw ;;
       systemPrompt <- (if truthy systemPromptRaw
                        then s <- sanitize_value systemPromptRaw ;;
                             ret (Some s)
                        else ret None) ;;
       push user userMessage ;;;
       mem <- read_memory ;;
       let messages := build_messages systemPrompt mem in
       completion <- create groq messages ;;
       let aiReply := or_else (first_content completion)
                              empty_response_reply in
       let aiReply := enforceMarkdownStructure aiReply in
       push assistant aiReply ;;;
       ret (mkResponse 200 aiReply))
    (ret (mkResponse 500 server_error_reply)).

(* ================================================================= *)
(** ** The specification's reading of the text operations

    Direct definitions that follow the wording of the specification;
    the theorems below compare them with the regex-driven ones. *)

(** [pat] occurs in [s]. *)
Definition contains (s pat : jsstring) : Prop :=
  exists a b, s = a ++ pat ++ b.

(** The text carries one of the markers ##, "- " or **. *)
Definition has_marker (t : jsstring) : Prop :=
  contains t (lit "##") \/ contains t (lit "- ") \/ contains t (lit "**").

(** Case-insensitive prefix: what follows [pat] at the start of [s]. *)
Fixpoint strip_prefix_ci (pat s : jsstring) : option jsstring :=
  match pat with
  | [] => Some s
  | p :: pat' =>
      match s with
      | c :: s' => if ci p c then strip_prefix_ci pat' s' else None
      | [] => None
      end
  end.

(** What follows the first [>] of [s], provided no line terminator
    comes before it. *)
Fixpoint after_first_gt (s : jsstring) : option jsstring :=
  match s with
  | [] => None
  | c :: s' =>
      if N.eqb c gt_char then Some s'
      else if dot c then after_first_gt s' else None
  end.

(** What follows the first closing script tag of [s], provided no line
    terminator comes before it. *)
Fixpoint after_first_close (s : jsstring) : option jsstring :=
  match strip_prefix_ci close_tag s with
  | Some rest => Some rest
  | None =>
      match s with
      | c :: s' => if dot c then after_first_close s' else None
      | [] => None
      end
  end.

(** A script-tag block at the start of [s], as short as possible: the
    opening [<script], the nearest [>], the nearest closing tag.  Gives
    what follows the block. *)
Definition script_block (s : jsstring) : option jsstring :=
  opt_bind (strip_prefix_ci open_tag s) (fun s1 =>
  opt_bind (after_first_gt s1) after_first_close).

(** Left-to-right removal of script-tag blocks; [fuel] bounds the number
    of steps and the length of the text is enough. *)
Fixpoint remove_script_blocks_fuel (fuel : nat) (s : jsstring) : jsstring :=
  match fuel with
  | O => s
  | S fuel' =>
      match s with
      | [] => []
      | c :: s' =>
          match script_block s with
          | Some rest => remove_script_blocks_fuel fuel' rest
          | None => c :: remove_script_blocks_fuel fuel' s'
          end
      end
  end.

Definition remove_script_blocks (s : jsstring) : jsstring :=
  remove_script_blocks_fuel (length s) s.

(** Deleting every [<] and [>]. *)
Definition remove_angles (s : jsstring) : jsstring :=
  filter (fun c => negb (is_angle c)) s.

Definition starts_with_space (s : jsstring) : bool :=
  match s with c :: _ => is_space c | [] => false end.

(** The fragments of a non-empty text cut at every [.], [?] or [!] that
    is followed by whitespace; the mark and the whole run of whitespace
    after it are dropped.  [in_sep] tells that the scan is inside such a
    run; [acc] is the current fragment, reversed. *)
Fixpoint fragments_go (s : jsstring) (in_sep : bool) (acc : jsstring)
  : list jsstring :=
  match s with
  | [] => [rev acc]
  | c :: s' =>
      if in_sep && is_space c then fragments_go s' true acc
      else if is_sentence_end c && starts_with_space s'
           then rev acc :: fragments_go s' true []
           else fragments_go s' false (c :: acc)
  end.

Definition fragments (t : jsstring) : list jsstring :=
  fragments_go t false [].

Definition nonempty_fragments (t : jsstring) : list jsstring :=
  filter (fun l => negb (is_empty l)) (fragments t).

(** Whether a request is well-formed for the ChatRequest type: a
    non-empty string [message]; [system] a string, or left out. *)
Definition valid_request (req : Req.Request) (msg : jsstring)
    (sys : option jsstring) : Prop :=
  msg <> [] /\
  Req.body req =
    Some (Req.mkBody (JsString msg)
                     (match sys with
                      | Some s => JsString s
                      | None => JsUndefined
                      end)).

(** The outbound list the specification describes for a valid request:
    the sanitized system prompt first, when one was supplied and
    something is left of it, then the buffer. *)
Definition expected_messages (sys : option jsstring)
    (memory : list ChatTurn) : list ChatTurn :=
  match sys with
  | Some s =>
      if is_empty (sanitize s) then memory
      else mkTurn system (sanitize s) :: memory
  | None => memory
  end.

(** The three ways the [message] field can be unusable. *)
Definition message_missing_or_invalid (req : Req.Request) : Prop :=
  body_field Req.message req = JsUndefined \/
  is_string (body_field Req.message req) = false \/
  body_field Req.message req = JsString [].

(** The pattern behind the first lazy star of [script_re]. *)
Definition after_gt_re : regex :=
  One (ci gt_char) :: LazyStar dot :: literal_ci close_tag.

(** Number of whitespace characters at the start of [s]. *)
Fixpoint space_run (s : jsstring) : nat :=
  match s with
  | c :: s' => if is_space c then S (space_run s') else 0
  | [] => 0
  end.

(** Characters consumed when [r] is what is left of [s]. *)
Definition consumed (s r : jsstring) : nat := length s - length r.

(** Sample requests and states used by the closed examples below. *)
Definition request_of (message system : JsValue) : Req.Request :=
  Req.mkRequest (Some (Req.mkBody message system)).

Definition fresh : Server := mkServer [] [].

Definition always_rejects : Provider := fun _ => Groq.Rejects.

Definition answers (content : option jsstring) : Provider :=
  fun _ => Groq.Resolves
    (Some (Groq.mkCompletion
       (Some [Groq.mkChoice (Some (Groq.mkMessage content))]))).

(** The turns a sequence of calls appends, in call order. *)
Definition turns_of (calls : list (Role * jsstring)) : list ChatTurn :=
  map (fun c => mkTurn (fst c) (snd c)) calls.

(** The last [n] elements of a list. *)
Definition last_n {A} (n : nat) (l : list A) : list A :=
  skipn (length l - n) l.

Module Part000.
(** The earlier revision of the server (second listing of
    [src/unnamed/part_000]): the same buffer operation under the name
    [pushMemory], the same [sanitize], and a handler without the
    structure enforcer. *)
Definition MAX_MEMORY : nat := 6.

Definition pushMemory (role : Role) (content : jsstring)
    (chatMemory : list ChatTurn) : list ChatTurn :=
  let chatMemory := chatMemory ++ [mkTurn role content] in
  if MAX_MEMORY <? length chatMemory then tl chatMemory else chatMemory.

Definition push (role : Role) (content : jsstring) : M unit :=
  fun st => (Returned tt,
             mkServer (pushMemory role content (chatMemory st))
                      (providerCalls st)).

Definition invalid_request_reply : jsstring := lit "Invalid request".
Definition no_response_reply : jsstring := lit "AI failed to respond".
Definition server_error_reply : jsstring := lit "Server error. Please retry.".

(** The handler destructures [req.body] inside the [try]: without a
    body that throws, and the [catch] block answers. *)
Definition handleChat (groq : Provider) (req : Req.Request) : M Response :=
  try_catch
    (match Req.body req with
     | None => throw
     | Some b =>
         let message := Req.message b in
         let system := Req.system b in
         if negb (truthy message) || negb (is_string message)
         then ret (mkResponse 400 invalid_request_reply)
         else
           userMessage <- sanitize_value message ;;
           systemPrompt <- (if truthy system
                            then s <- sanitize_value system ;; ret (Some s)
                            else ret None) ;;
           push user userMessage ;;;
           mem <- read_memory ;;
           let messages := build_messages systemPrompt mem in
           completion <- create groq messages ;;
           let reply := or_else (first_content completion)
                                no_response_reply in
           push assistant reply ;;;
           ret (mkResponse 200 reply)
     end)
    (ret (mkResponse 500 server_error_reply)).
End Part000.

Module Draft.
(** The first listing of [src/unnamed/part_000]: a handler without
    memory and without sanitizing, with a persona of its own as system
    prompt.  The user entry carries the [message] value as it came. *)
Record Turn : Type := mkTurn { role : Role; content : JsValue }.

Definition Provider := list Turn -> Groq.Result.

(** The template literal of the system entry. *)
Definition persona : jsstring :=
  [LF]
  ++ lit "You are Atharva's AI Assistant."
  ++ [LF]
  ++ [LF]
  ++ lit "IMPORTANT:"
  ++ [LF]
  ++ lit "- Always use Markdown"
  ++ [LF]
  ++ lit "- Use headings, bullet points, bold text"
  ++ [LF]
  ++ lit "- Never write one long paragraph"
  ++ [LF]
  ++ [LF]
  ++ lit "Tone:"
  ++ [LF]
  ++ lit "- Friendly"
  ++ [LF]
  ++ lit "- Professional"
  ++ [LF]
  ++ lit "- Hinglish"
  ++ [LF]
  ++ [LF]
  ++ lit "Context:"
  ++ [LF]
  ++ lit "- 2nd Year BTech CSE (AI & ML), VIT Vellore"
  ++ [LF]
  ++ lit "- Skills: Python, SQL, Power BI, Machine Learning, Data Analytics"
  ++ [LF]
  ++ lit "- Projects:"
  ++ [LF]
  ++ lit "  - Student Performance Prediction"
  ++ [LF]
  ++ lit "  - Sales Analytics Dashboard"
  ++ [LF]
  ++ lit "  - Churn Prediction"
  ++ [LF]
  ++ lit "          ".

Definition missing_reply : jsstring :=
  warning_sign ++ lit " Message missing hai.".
Definition no_response_reply : jsstring :=
  warning_sign ++ lit " AI response generate nahi ho paya.".
Definition server_error_reply : jsstring :=
  warning_sign ++ lit " Server issue ho gaya. Thodi der baad try karo.".

(** The body of the [try]: the response, or [None] when it throws,
    with the message lists sent.  [completion.choices] has no optional
    chaining on [completion]: a null completion throws. *)
Definition try_body (groq : Provider) (req : Req.Request)
  : option Response * list (list Turn) :=
  let userMessage := body_field Req.message req in
  if negb (truthy userMessage)
  then (Some (mkResponse 400 missing_reply), [])
  else
    let messages :=
      [mkTurn system (JsString persona); mkTurn user userMessage] in
    match groq messages with
    | Groq.Rejects => (None, [messages])
    | Groq.Resolves None => (None, [messages])
    | Groq.Resolves (Some completion) =>
        let reply := or_else (first_content (Some completion))
                             no_response_reply in
        (Some (mkResponse 200 reply), [messages])
    end.

(** The handler: the [catch] block answers 500.  (What is thrown is an
    Error object, whose [message] the block logs.) *)
Definition handleChat (groq : Provider) (req : Req.Request)
  : Response * list (list Turn) :=
  match try_body groq req with
  | (Some response, sent) => (response, sent)
  | (None, sent) => (mkResponse 500 server_error_reply, sent)
  end.
End Draft.

(* ================================================================= *)
(** ** Vocabulary of the further properties *)

(** No character of [s] is [x]. *)
Definition char_free (x : char16) (s : jsstring) : bool :=
  forallb (fun c => negb (N.eqb c x)) s.

(** Neither [<] nor [>] occurs in [s]. *)
Definition angle_free (s : jsstring) : bool :=
  forallb (fun c => negb (is_angle c)) s.

(** No line terminator occurs in [s]. *)
Definition line_free (s : jsstring) : bool := forallb dot s.

(** [s] is [pat] up to the case of ASCII letters. *)
Definition same_ignoring_case (pat s : jsstring) : Prop :=
  strip_prefix_ci pat s = Some [].

(** [s] is [t] with some characters deleted. *)
Inductive subseq : jsstring -> jsstring -> Prop :=
| subseq_nil : subseq [] []
| subseq_drop (c : char16) (s t : jsstring) : subseq s t -> subseq s (c :: t)
| subseq_keep (c : char16) (s t : jsstring) :
    subseq s t -> subseq (c :: s) (c :: t).

(** Some [.], [?] or [!] of [s] is followed by whitespace. *)
Fixpoint has_separator (s : jsstring) : bool :=
  match s with
  | [] => false
  | c :: s' =>
      is_sentence_end c && starts_with_space s' || has_separator s'
  end.

(** No turn of the buffer has the role system. *)
Definition no_system_turn (m : list ChatTurn) : Prop :=
  Forall (fun t => role t <> system) m.

(** The turns of role user and system of a list carry no angle
    bracket. *)
Definition caller_text_clean (m : list ChatTurn) : Prop :=
  Forall (fun t => role t <> assistant -> angle_free (content t) = true) m.


(* ================================================================= *)
(** ** The memory buffer *)

Section Memory.

Variables (r : Role) (c : jsstring).

Lemma pushToMemory_room (m : list ChatTurn) :
  length m < MAX_MEMORY_MESSAGES ->
  pushToMemory r c m = m ++ [mkTurn r c].
Proof.
  intros H. unfold pushToMemory.
  assert (E : length (m ++ [mkTurn r c]) = S (length m))
    by (rewrite length_app; simpl; lia).
  rewrite E.
  destruct (Nat.ltb_spec MAX_MEMORY_MESSAGES (S (length m))); [lia | reflexivity].
Qed.

Lemma pushToMemory_full (m : list ChatTurn) :
  MAX_MEMORY_MESSAGES <= length m ->
  pushToMemory r c m = tl m ++ [mkTurn r c].
Proof.
  intros H. unfold pushToMemory.
  assert (E : length (m ++ [mkTurn r c]) = S (length m))
    by (rewrite length_app; simpl; lia).
  rewrite E.
  destruct (Nat.ltb_spec MAX_MEMORY_MESSAGES (S (length m))); [| lia].
  destruct m as [| x m']; [simpl in H; unfold MAX_MEMORY_MESSAGES in H; lia |].
  reflexivity.
Qed.

Lemma pushToMemory_length (m : list ChatTurn) :
  length (pushToMemory r c m) =
  if length m <? MAX_MEMORY_MESSAGES then S (length m) else length m.
Proof.
  destruct (Nat.ltb_spec (length m) MAX_MEMORY_MESSAGES) as [H | H].
  - rewrite pushToMemory_room by exact H. rewrite length_app. simpl. lia.
  - rewrite pushToMemory_full by exact H.
    destruct m as [| x m']; [simpl in H; unfold MAX_MEMORY_MESSAGES in H; lia |].
    simpl. rewrite length_app. simpl. lia.
Qed.

Lemma pushToMemory_bounded (m : list ChatTurn) :
  length m <= MAX_MEMORY_MESSAGES ->
  length (pushToMemory r c m) <= MAX_MEMORY_MESSAGES.
Proof.
  intros H. rewrite pushToMemory_length.
  destruct (Nat.ltb_spec (length m) MAX_MEMORY_MESSAGES); lia.
Qed.

Lemma pushToMemory_last (m : list ChatTurn) :
  exists front, pushToMemory r c m = front ++ [mkTurn r c].
Proof.
  destruct (Nat.lt_ge_cases (length m) MAX_MEMORY_MESSAGES) as [H | H].
  - exists m. now apply pushToMemory_room.
  - exists (tl m). now apply pushToMemory_full.
Qed.

End Memory.

Lemma push_all_bounded (calls : list (Role * jsstring)) (m : list ChatTurn) :
  length m <= MAX_MEMORY_MESSAGES ->
  length (push_all calls m) <= MAX_MEMORY_MESSAGES.
Proof.
  revert m. induction calls as [| x calls IH]; intros m H; simpl.
  - exact H.
  - apply IH. now apply pushToMemory_bounded.
Qed.

(** After any sequence of calls the buffer is the window of the last 6
    turns of everything that was ever in it or appended to it. *)
Lemma push_all_window (calls : list (Role * jsstring)) (m : list ChatTurn) :
  length m <= MAX_MEMORY_MESSAGES ->
  push_all calls m = last_n MAX_MEMORY_MESSAGES (m ++ turns_of calls).
Proof.
  unfold last_n. revert m.
  induction calls as [| [r c] calls IH]; intros m H.
  - simpl. rewrite app_nil_r.
    replace (length m - MAX_MEMORY_MESSAGES) with 0 by lia. reflexivity.
  - change (push_all ((r, c) :: calls) m)
      with (push_all calls (pushToMemory r c m)).
    rewrite IH by now apply pushToMemory_bounded.
    change (turns_of ((r, c) :: calls)) with (mkTurn r c :: turns_of calls).
    destruct (Nat.lt_ge_cases (length m) MAX_MEMORY_MESSAGES) as [L | L].
    + rewrite pushToMemory_room by exact L.
      now rewrite <- app_assoc.
    + rewrite pushToMemory_full by exact L.
      destruct m as [| a m']; [simpl in L; unfold MAX_MEMORY_MESSAGES in L; lia |].
      cbn [tl]. rewrite <- app_assoc. cbn [app].
      assert (E : length m' = 5)
        by (simpl in H, L; unfold MAX_MEMORY_MESSAGES in *; lia).
      cbn [length]. rewrite !length_app. cbn [length]. rewrite E.
      unfold MAX_MEMORY_MESSAGES.
      replace (S (5 + S (length (turns_of calls))) - 6)
        with (S (5 + S (length (turns_of calls)) - 6)) by lia.
      reflexivity.
Qed.

(** C2. On a buffer of at most 6 turns, [pushToMemory] puts the new turn
    at the back; below capacity nothing is removed; at capacity exactly
    the front turn is removed and the result has 6 turns.  In both cases
    the result is the old buffer with a prefix of at most one turn cut
    off, followed by the new turn: retained turns keep their order.
    Over any sequence of calls the buffer is therefore the last 6 turns,
    in append order, of the old buffer followed by the appended turns. *)
Theorem C2_push_is_fifo (r : Role) (c : jsstring) (m : list ChatTurn) :
  length m <= 6 ->
  (length m < 6 -> pushToMemory r c m = m ++ [mkTurn r c]) /\
  (length m = 6 ->
     pushToMemory r c m = tl m ++ [mkTurn r c] /\
     length (pushToMemory r c m) = 6 /\
     exists oldest, m = oldest :: tl m) /\
  (exists evicted kept,
     m = evicted ++ kept /\ length evicted <= 1 /\
     pushToMemory r c m = kept ++ [mkTurn r c]) /\
  (forall calls, push_all calls m = last_n 6 (m ++ turns_of calls)).
Proof.
  intros Hlen. split; [| split; [| split]].
  - intros H. now apply pushToMemory_room.
  - intros H. split; [| split].
    + apply pushToMemory_full. unfold MAX_MEMORY_MESSAGES. lia.
    + rewrite pushToMemory_length, H. reflexivity.
    + destruct m as [| x m']; [discriminate H |]. now exists x.
  - destruct (Nat.lt_ge_cases (length m) MAX_MEMORY_MESSAGES) as [H | H].
    + exists [], m. repeat split; [simpl; lia |]. now apply pushToMemory_room.
    + destruct m as [| x m']; [simpl in H; unfold MAX_MEMORY_MESSAGES in H; lia |].
      exists [x], m'. repeat split; [simpl; lia |].
      now rewrite pushToMemory_full.
  - intros calls. now apply push_all_window.
Qed.

Lemma C2_push_is_fifo_witness :
  let m := map (fun s => mkTurn user (lit s)) ["1"; "2"; "3"; "4"; "5"; "6"]%string in
  length m <= 6 /\
  pushToMemory assistant (lit "7") m =
    map (fun s => mkTurn user (lit s)) ["2"; "3"; "4"; "5"; "6"]%string
    ++ [mkTurn assistant (lit "7")].
Proof.
  split; [simpl; lia |].
  assert (L : length (map (fun s => mkTurn user (lit s))
                 ["1"; "2"; "3"; "4"; "5"; "6"]%string) <= 6) by (simpl; lia).
  exact (proj1 (proj1 (proj2 (C2_push_is_fifo assistant (lit "7") _ L))
                  eq_refl)).
Defined.

(* ================================================================= *)
(** ** The chat handler *)

Lemma is_empty_true (s : jsstring) : is_empty s = true <-> s = [].
Proof. destruct s; simpl; split; congruence. Qed.

Lemma is_empty_false (s : jsstring) : is_empty s = false <-> s <> [].
Proof. destruct s; simpl; split; congruence. Qed.

Section Handler.

Variable groq : Provider.

(** With an unusable [message] the handler answers 400 at once. *)
Lemma handleChat_invalid (req : Req.Request) (st : Server) :
  message_missing_or_invalid req ->
  handleChat groq req st =
    (Returned (mkResponse 400 invalid_request_reply), st).
Proof.
  unfold message_missing_or_invalid, handleChat, try_catch.
  intros [H | [H | H]].
  - rewrite H. reflexivity.
  - rewrite H. rewrite orb_true_r. reflexivity.
  - rewrite H. reflexivity.
Qed.

(** What the handler does on a valid request, by the provider's
    answer. *)
Lemma handleChat_valid (req : Req.Request) (msg : jsstring)
    (sys : option jsstring) (st : Server) :
  valid_request req msg sys ->
  let memory := pushToMemory user (sanitize msg) (chatMemory st) in
  let messages := expected_messages sys memory in
  let calls := providerCalls st ++ [messages] in
  handleChat groq req st =
    match groq messages with
    | Groq.Rejects =>
        (Returned (mkResponse 500 server_error_reply),
         mkServer memory calls)
    | Groq.Resolves completion =>
        let aiReply :=
          enforceMarkdownStructure
            (or_else (first_content completion) empty_response_reply) in
        (Returned (mkResponse 200 aiReply),
         mkServer (pushToMemory assistant aiReply memory) calls)
    end.
Proof.
  intros [Hmsg Hbody]. cbv zeta.
  unfold handleChat, try_catch, body_field. rewrite Hbody. simpl.
  destruct msg as [| m0 msg']; [congruence |]. simpl.
  destruct sys as [s |]; simpl.
  - destruct s as [| s0 s']; simpl.
    + unfold bind, ret, push, read_memory, create, sanitize_value; simpl.
      destruct (groq _); reflexivity.
    + unfold bind, ret, push, read_memory, create, sanitize_value,
        build_messages; simpl.
      destruct (is_empty (sanitize (s0 :: s'))); simpl;
        destruct (groq _); reflexivity.
  - unfold bind, ret, push, read_memory, create, sanitize_value; simpl.
    destruct (groq _); reflexivity.
Qed.


Lemma handleChat_memory (req : Req.Request) (st : Server) :
  exists (resp : Response) (pushes : list (Role * jsstring)) calls,
    handleChat groq req st
    = (Returned resp, mkServer (push_all pushes (chatMemory st)) calls).
Proof.
  destruct st as [mem calls].
  destruct req as [[[m sy] |]].
  2: { eexists _, [], _. reflexivity. }
  destruct (is_string m) eqn:Hm.
  2: { eexists _, [], _. apply handleChat_invalid. right; left. exact Hm. }
  destruct m as [| | b | n | s |]; try discriminate Hm.
  destruct s as [| c s'].
  { eexists _, [], _. apply handleChat_invalid. right; right. reflexivity. }
  unfold handleChat, try_catch, body_field.
  cbn [Req.body Req.message Req.system truthy is_string is_empty negb orb].
  destruct sy as [| | b | n | s |]; cbn [truthy];
    try destruct b; try destruct (negb (Z.eqb n 0));
    try destruct (negb (is_empty s));
    cbv beta iota zeta delta
      [bind ret push read_memory create sanitize_value throw
       chatMemory providerCalls];
    try (eexists _, [], _; reflexivity);
    match goal with
    | |- context [groq ?m] =>
        destruct (groq m);
        [ eexists _, [(user, _)], _
        | eexists _, [(user, _); (assistant, _)], _ ]; reflexivity
    end.
Qed.

(** Whatever the request, the handler answers, and leaves a buffer
    within the capacity when it found one. *)
Lemma handleChat_bounded (req : Req.Request) (st : Server) :
  length (chatMemory st) <= MAX_MEMORY_MESSAGES ->
  length (chatMemory (snd (handleChat groq req st)))
    <= MAX_MEMORY_MESSAGES.
Proof.
  intros H.
  destruct (handleChat_memory req st) as (resp & pushes & calls & E).
  rewrite E. cbn [snd chatMemory]. now apply push_all_bounded.
Qed.

End Handler.

(** *** The earlier revision *)

Lemma pushMemory_is_pushToMemory : Part000.pushMemory = pushToMemory.
Proof. reflexivity. Qed.

(** With a body object, the earlier handler rejects an unusable
    [message] the same way. *)
Lemma part000_handleChat_invalid (groq : Provider) (req : Req.Request)
    (b : Req.Body) (st : Server) :
  Req.body req = Some b ->
  message_missing_or_invalid req ->
  Part000.handleChat groq req st =
    (Returned (mkResponse 400 Part000.invalid_request_reply), st).
Proof.
  unfold message_missing_or_invalid, body_field, Part000.handleChat, try_catch.
  intros -> [H | [H | H]]; rewrite H.
  - reflexivity.
  - rewrite orb_true_r. reflexivity.
  - reflexivity.
Qed.

(** Without a body the destructuring throws: status 500, nothing else
    happens. *)
Lemma part000_handleChat_no_body (groq : Provider) (st : Server) :
  Part000.handleChat groq (Req.mkRequest None) st =
    (Returned (mkResponse 500 Part000.server_error_reply), st).
Proof. reflexivity. Qed.

Lemma part000_handleChat_valid (groq : Provider) (req : Req.Request)
    (msg : jsstring) (sys : option jsstring) (st : Server) :
  valid_request req msg sys ->
  let memory := pushToMemory user (sanitize msg) (chatMemory st) in
  let messages := expected_messages sys memory in
  let calls := providerCalls st ++ [messages] in
  Part000.handleChat groq req st =
    match groq messages with
    | Groq.Rejects =>
        (Returned (mkResponse 500 Part000.server_error_reply),
         mkServer memory calls)
    | Groq.Resolves completion =>
        let reply := or_else (first_content completion)
                             Part000.no_response_reply in
        (Returned (mkResponse 200 reply),
         mkServer (pushToMemory assistant reply memory) calls)
    end.
Proof.
  intros [Hmsg Hbody]. cbv zeta.
  unfold Part000.handleChat, try_catch. rewrite Hbody.
  cbn [Req.message Req.system].
  destruct msg as [| m0 msg']; [congruence |].
  cbn [truthy is_string is_empty negb orb].
  destruct sys as [s |]; cbn [truthy expected_messages].
  - destruct s as [| s0 s']; cbn [is_empty negb];
      cbv beta iota zeta delta
        [bind ret Part000.push read_memory create sanitize_value
         chatMemory providerCalls build_messages];
      rewrite ?pushMemory_is_pushToMemory.
    + change (is_empty (sanitize [])) with true. cbv iota.
      destruct (groq _); reflexivity.
    + destruct (is_empty (sanitize (s0 :: s'))); cbn [app];
        destruct (groq _); reflexivity.
  - cbv beta iota zeta delta
      [bind ret Part000.push read_memory create sanitize_value
       chatMemory providerCalls build_messages].
    rewrite ?pushMemory_is_pushToMemory. cbn [app].
    destruct (groq _); reflexivity.
Qed.

(** C1. Starting from the empty buffer, after every call of any sequence
    of [pushToMemory] calls the buffer holds at most 6 turns (stated for
    every prefix [firstn k calls] of the sequence); a single push keeps
    the bound [length <= 6]; and so does the handling of any request,
    whatever the provider answers. *)
Theorem C1_memory_never_exceeds_capacity :
  (forall (calls : list (Role * jsstring)) (k : nat),
      length (push_all (firstn k calls) []) <= 6) /\
  (forall (r : Role) (c : jsstring) (m : list ChatTurn),
      length m <= 6 -> length (pushToMemory r c m) <= 6) /\
  (forall (groq : Provider) (req : Req.Request) (st : Server),
      length (chatMemory st) <= 6 ->
      length (chatMemory (snd (handleChat groq req st))) <= 6).
Proof.
  split; [| split].
  - intros calls k. apply (push_all_bounded (firstn k calls) []).
    simpl. unfold MAX_MEMORY_MESSAGES. lia.
  - intros r c m H. now apply pushToMemory_bounded.
  - intros groq req st H. now apply handleChat_bounded.
Qed.

Lemma C1_memory_never_exceeds_capacity_witness :
  length (push_all (firstn 8
            [(user, lit "a"); (assistant, lit "b"); (user, lit "c");
             (assistant, lit "d"); (user, lit "e"); (assistant, lit "f");
             (user, lit "g"); (assistant, lit "h")]) []) <= 6 /\
  (length (repeat (mkTurn user (lit "x")) 6) <= 6 /\
   length (pushToMemory assistant (lit "y")
             (repeat (mkTurn user (lit "x")) 6)) <= 6) /\
  (length (chatMemory (mkServer (repeat (mkTurn user (lit "x")) 6) [])) <= 6 /\
   length (chatMemory (snd (handleChat (answers (Some (lit "ok")))
                              (request_of (JsString (lit "hi")) JsUndefined)
                              (mkServer (repeat (mkTurn user (lit "x")) 6) []))))
     <= 6).
Proof.
  split; [| split].
  - apply (proj1 C1_memory_never_exceeds_capacity).
  - split; [simpl; lia |].
    apply (proj1 (proj2 C1_memory_never_exceeds_capacity)). simpl. lia.
  - split; [simpl; lia |].
    apply (proj2 (proj2 C1_memory_never_exceeds_capacity)). simpl. lia.
Defined.

(** C4. When the [message] field is absent, is not a string, or is the
    empty string, the handler returns status 400 with the fixed
    invalid-request reply, the log of provider calls is unchanged (no
    invocation) and the memory buffer is unchanged. *)
Theorem C4_invalid_message_gives_400 (groq : Provider) (req : Req.Request)
    (st : Server) :
  message_missing_or_invalid req ->
  let (out, st') := handleChat groq req st in
  out = Returned (mkResponse 400 invalid_request_reply) /\
  providerCalls st' = providerCalls st /\
  chatMemory st' = chatMemory st.
Proof.
  intros H. rewrite (handleChat_invalid groq st H). auto.
Qed.

Lemma C4_invalid_message_gives_400_witness :
  message_missing_or_invalid (request_of (JsNumber 123) JsUndefined) /\
  let (out, st') :=
    handleChat (answers (Some (lit "hello")))
               (request_of (JsNumber 123) JsUndefined)
               (mkServer [mkTurn user (lit "earlier")] []) in
  out = Returned (mkResponse 400 invalid_request_reply) /\
  providerCalls st' = [] /\
  chatMemory st' = [mkTurn user (lit "earlier")].
Proof.
  split.
  - right; left; reflexivity.
  - apply (@C4_invalid_message_gives_400 (answers (Some (lit "hello")))
             (request_of (JsNumber 123) JsUndefined)
             (mkServer [mkTurn user (lit "earlier")] [])).
    right; left; reflexivity.
Defined.

(** C5. On a valid request whose provider call is rejected, the handler
    returns status 500 with the fixed server-error reply; the memory
    buffer is exactly the buffer before the request with the sanitized
    user turn pushed (no assistant turn), and that user turn is its last
    element. *)
Theorem C5_provider_failure_gives_500 (groq : Provider) (req : Req.Request)
    (msg : jsstring) (sys : option jsstring) (st : Server) :
  valid_request req msg sys ->
  groq (expected_messages sys
          (pushToMemory user (sanitize msg) (chatMemory st))) = Groq.Rejects ->
  let (out, st') := handleChat groq req st in
  out = Returned (mkResponse 500 server_error_reply) /\
  chatMemory st' = pushToMemory user (sanitize msg) (chatMemory st) /\
  (exists front, chatMemory st' = front ++ [mkTurn user (sanitize msg)]) /\
  In (mkTurn user (sanitize msg)) (chatMemory st').
Proof.
  intros Hv Hrej. rewrite (handleChat_valid groq st Hv). cbv zeta.
  rewrite Hrej. cbn [chatMemory].
  destruct (pushToMemory_last user (sanitize msg) (chatMemory st)) as [front E].
  repeat split.
  - now exists front.
  - rewrite E. apply in_or_app. right. now left.
Qed.

Lemma C5_provider_failure_gives_500_witness :
  valid_request (request_of (JsString (lit "hi <b>")) JsUndefined)
                (lit "hi <b>") None /\
  let (out, st') :=
    handleChat always_rejects
               (request_of (JsString (lit "hi <b>")) JsUndefined) fresh in
  out = Returned (mkResponse 500 server_error_reply) /\
  chatMemory st' = [mkTurn user (lit "hi b")].
Proof.
  assert (V : valid_request (request_of (JsString (lit "hi <b>")) JsUndefined)
                (lit "hi <b>") None)
    by (split; [discriminate | reflexivity]).
  split; [exact V |].
  pose proof (@C5_provider_failure_gives_500 always_rejects _ _ _ fresh V
                eq_refl) as H.
  destruct (handleChat always_rejects
              (request_of (JsString (lit "hi <b>")) JsUndefined) fresh)
    as [out st'].
  destruct H as (H1 & H2 & _). split; [exact H1 | exact H2].
Defined.

(** C6 as stated fails: a supplied system prompt of which sanitizing
    leaves nothing (here [<>]) gets no system entry, although the claim
    puts [{role: system, content: sanitize(system)}] first whenever a
    prompt is supplied. *)
Lemma C6_counterexample :
  let req := request_of (JsString (lit "hi")) (JsString (lit "<>")) in
  valid_request req (lit "hi") (Some (lit "<>")) /\
  providerCalls (snd (handleChat always_rejects req fresh))
    = [[mkTurn user (lit "hi")]] /\
  providerCalls (snd (handleChat always_rejects req fresh))
    <> [mkTurn system (sanitize (lit "<>"))
        :: pushToMemory user (sanitize (lit "hi")) (chatMemory fresh)].
Proof.
  cbv zeta. split; [| split].
  - split; [discriminate | reflexivity].
  - vm_compute. reflexivity.
  - vm_compute. discriminate.
Qed.

(** C6, amended. On a valid request the handler makes exactly one
    provider call, and the message list sent is: the entry with role
    system and content [sanitize system] first when a system prompt was
    supplied and its sanitized form is not empty, followed by the whole
    memory buffer after the sanitized user turn was pushed; with no
    system prompt the list is that buffer alone. *)
Theorem C6_outbound_messages (groq : Provider) (req : Req.Request)
    (msg : jsstring) (sys : option jsstring) (st : Server) :
  valid_request req msg sys ->
  let memory := pushToMemory user (sanitize msg) (chatMemory st) in
  let sent := match sys with
              | Some s => if is_empty (sanitize s) then memory
                          else mkTurn system (sanitize s) :: memory
              | None => memory
              end in
  providerCalls (snd (handleChat groq req st)) = providerCalls st ++ [sent].
Proof.
  intros Hv. cbv zeta. rewrite (handleChat_valid groq st Hv). cbv zeta.
  fold (expected_messages sys
          (pushToMemory user (sanitize msg) (chatMemory st))).
  destruct (groq _); reflexivity.
Qed.

Lemma C6_outbound_messages_witness :
  let req := request_of (JsString (lit "hi")) (JsString (lit " be <i>brief ")) in
  valid_request req (lit "hi") (Some (lit " be <i>brief ")) /\
  providerCalls (snd (handleChat (answers (Some (lit "**ok**"))) req fresh))
    = [[mkTurn system (lit "be ibrief"); mkTurn user (lit "hi")]].
Proof.
  cbv zeta.
  assert (V : valid_request
                (request_of (JsString (lit "hi")) (JsString (lit " be <i>brief ")))
                (lit "hi") (Some (lit " be <i>brief ")))
    by (split; [discriminate | reflexivity]).
  split; [exact V |].
  exact (@C6_outbound_messages (answers (Some (lit "**ok**"))) _ _ _ fresh V).
Defined.

(** C10. A supplied system prompt whose sanitized form is the empty
    string is treated as absent: the message list sent to the provider
    is the memory buffer alone, with no system entry in front. *)
Theorem C10_empty_system_prompt_is_absent (groq : Provider)
    (req : Req.Request) (msg s : jsstring) (st : Server) :
  valid_request req msg (Some s) ->
  sanitize s = [] ->
  providerCalls (snd (handleChat groq req st))
    = providerCalls st
      ++ [pushToMemory user (sanitize msg) (chatMemory st)].
Proof.
  intros Hv Hs. rewrite (handleChat_valid groq st Hv). cbv zeta.
  unfold expected_messages. rewrite Hs. simpl.
  destruct (groq _); reflexivity.
Qed.

Lemma C10_empty_system_prompt_is_absent_witness :
  let req := request_of (JsString (lit "hi")) (JsString (lit " <> > ")) in
  valid_request req (lit "hi") (Some (lit " <> > ")) /\
  sanitize (lit " <> > ") = [] /\
  providerCalls (snd (handleChat (answers None) req fresh))
    = [[mkTurn user (lit "hi")]].
Proof.
  cbv zeta.
  assert (V : valid_request
                (request_of (JsString (lit "hi")) (JsString (lit " <> > ")))
                (lit "hi") (Some (lit " <> > ")))
    by (split; [discriminate | reflexivity]).
  split; [exact V |]. split; [reflexivity |].
  exact (@C10_empty_system_prompt_is_absent (answers None) _ _ _ fresh V
           eq_refl).
Defined.

Lemma enforce_empty_response_reply :
  enforceMarkdownStructure empty_response_reply = empty_response_reply.
Proof. vm_compute. reflexivity. Qed.

(** C8 as stated fails: when the first choice's content is present but
    is the empty string, the reply is not that content: the fallback
    text is substituted, returned with status 200 and pushed. *)
Lemma C8_counterexample :
  let completion :=
    Some (Groq.mkCompletion
            (Some [Groq.mkChoice (Some (Groq.mkMessage (Some [])))])) in
  first_content completion = Some [] /\
  or_else (first_content completion) empty_response_reply <> [] /\
  handleChat (answers (Some [])) (request_of (JsString (lit "hi")) JsUndefined)
             fresh
    = (Returned (mkResponse 200 empty_response_reply),
       mkServer [mkTurn user (lit "hi");
                 mkTurn assistant empty_response_reply]
                [[mkTurn user (lit "hi")]]).
Proof.
  cbv zeta. split; [reflexivity | split].
  - vm_compute. discriminate.
  - vm_compute. reflexivity.
Qed.

(** C8, amended. For a valid request whose provider call resolves, the
    reply taken from the completion is the content of the first
    choice's message when that content is present and not empty; when
    it is absent (at any level of [completion?.choices?.[0]?.message?.
    content]) or is the empty string, the fixed fallback text is
    substituted.  The structure enforcer is then applied, and its result
    is both returned with status 200 and pushed as the assistant turn;
    the fallback text passes the enforcer unchanged, so on the fallback
    path exactly that text is returned and pushed. *)
Theorem C8_reply_extraction (groq : Provider) (req : Req.Request)
    (msg : jsstring) (sys : option jsstring) (st : Server)
    (completion : option Groq.Completion) :
  valid_request req msg sys ->
  let memory := pushToMemory user (sanitize msg) (chatMemory st) in
  groq (expected_messages sys memory) = Groq.Resolves completion ->
  let aiReply := or_else (first_content completion) empty_response_reply in
  (forall c, first_content completion = Some c -> c <> [] -> aiReply = c) /\
  (first_content completion = None \/ first_content completion = Some [] ->
   aiReply = empty_response_reply /\
   enforceMarkdownStructure aiReply = empty_response_reply) /\
  let (out, st') := handleChat groq req st in
  out = Returned (mkResponse 200 (enforceMarkdownStructure aiReply)) /\
  chatMemory st' =
    pushToMemory assistant (enforceMarkdownStructure aiReply) memory.
Proof.
  intros Hv memory Hres aiReply. split; [| split].
  - intros c Hc Hne. unfold aiReply. rewrite Hc. simpl.
    apply is_empty_false in Hne. now rewrite Hne.
  - intros H.
    assert (E : aiReply = empty_response_reply)
      by (unfold aiReply; destruct H as [H | H]; rewrite H; reflexivity).
    split; [exact E |]. rewrite E. apply enforce_empty_response_reply.
  - rewrite (handleChat_valid groq st Hv). cbv zeta.
    fold memory. rewrite Hres. fold aiReply. split; reflexivity.
Qed.

Lemma C8_reply_extraction_witness :
  let req := request_of (JsString (lit "hi")) JsUndefined in
  valid_request req (lit "hi") None /\
  let (out, st') := handleChat (answers None) req fresh in
  out = Returned (mkResponse 200 empty_response_reply) /\
  chatMemory st' = [mkTurn user (lit "hi");
                    mkTurn assistant empty_response_reply].
Proof.
  cbv zeta.
  assert (V : valid_request (request_of (JsString (lit "hi")) JsUndefined)
                (lit "hi") None)
    by (split; [discriminate | reflexivity]).
  split; [exact V |].
  pose proof (@C8_reply_extraction (answers None) _ _ _ fresh _ V eq_refl)
    as (_ & _ & H).
  destruct (handleChat (answers None)
              (request_of (JsString (lit "hi")) JsUndefined) fresh)
    as [out st'].
  destruct H as [H1 H2]. split; [exact H1 | exact H2].
Defined.

(* ================================================================= *)
(** ** The structure enforcer *)

Lemma strip_prefix_spec (pat s r : jsstring) :
  strip_prefix pat s = Some r <-> s = pat ++ r.
Proof.
  revert s. induction pat as [| p pat IH]; intros s; simpl.
  - split; congruence.
  - destruct s as [| c s'].
    + split; discriminate.
    + destruct (N.eqb_spec p c) as [-> | Hne].
      * rewrite IH. split; congruence.
      * split; [discriminate | congruence].
Qed.

Lemma includes_spec (s pat : jsstring) :
  includes s pat = true <-> contains s pat.
Proof.
  unfold contains. induction s as [| c s' IH]; simpl.
  - destruct (strip_prefix pat []) as [r |] eqn:E.
    + apply strip_prefix_spec in E. split; [| reflexivity].
      intros _. now exists [], r.
    + split; [discriminate |]. intros (a & b & Hab).
      destruct a; [| discriminate].
      assert (strip_prefix pat [] = Some b)
        by (apply strip_prefix_spec; exact Hab).
      congruence.
  - destruct (strip_prefix pat (c :: s')) as [r |] eqn:E.
    + apply strip_prefix_spec in E. split; [| reflexivity].
      intros _. now exists [], r.
    + rewrite IH. split.
      * intros (a & b & ->). now exists (c :: a), b.
      * intros (a & b & Hab). destruct a as [| x a].
        -- assert (strip_prefix pat (c :: s') = Some b)
             by (apply strip_prefix_spec; exact Hab).
           congruence.
        -- simpl in Hab. injection Hab as _ ->. now exists a, b.
Qed.

Lemma includes_false (s pat : jsstring) :
  includes s pat = false <-> ~ contains s pat.
Proof.
  rewrite <- includes_spec. destruct (includes s pat); split; congruence.
Qed.

(** The test of the source is the specification's [has_marker]. *)
Lemma structured_spec (t : jsstring) :
  includes t (lit "##") || includes t (lit "- ") || includes t (lit "**")
    = true <-> has_marker t.
Proof.
  unfold has_marker. rewrite !orb_true_iff, !includes_spec. tauto.
Qed.

Lemma append_bullets_concat (lines : list jsstring) (output : jsstring) :
  append_bullets output lines = output ++ concat (map bullet lines).
Proof.
  revert output. induction lines as [| l lines IH]; intros output; simpl.
  - now rewrite app_nil_r.
  - rewrite IH. now rewrite <- app_assoc.
Qed.

Lemma greedy_plus_spaces (s : jsstring) :
  greedy_plus is_space (fun _ => Some 0) s =
  if starts_with_space s then Some (space_run s) else None.
Proof.
  induction s as [| c s' IH]; simpl; [reflexivity |].
  destruct (is_space c); [| reflexivity].
  rewrite IH. destruct s' as [| d s'']; simpl; [reflexivity |].
  destruct (is_space d); reflexivity.
Qed.

Lemma match_sentence_re (c : char16) (s : jsstring) :
  match_len sentence_re (c :: s) =
  if is_sentence_end c && starts_with_space s
  then Some (S (space_run s)) else None.
Proof.
  unfold sentence_re. cbn [match_len].
  destruct (is_sentence_end c); [| reflexivity].
  change (match_len []) with (fun _ : jsstring => Some 0).
  rewrite greedy_plus_spaces. simpl.
  destruct (starts_with_space s); reflexivity.
Qed.

(** The split loop of the source computes the specification's
    fragments: outside a separator, and while the rest of a separator
    is being skipped. *)
Lemma split_go_fragments (s : jsstring) :
  (forall acc, split_go sentence_re s 0 acc = fragments_go s false acc) /\
  split_go sentence_re s (space_run s) [] = fragments_go s true [].
Proof.
  induction s as [| c s' [IHB IHA]].
  - split; reflexivity.
  - assert (B : forall acc,
               split_go sentence_re (c :: s') 0 acc
               = fragments_go (c :: s') false acc).
    { intros acc. cbn [split_go fragments_go]. rewrite match_sentence_re.
      cbn [andb].
      destruct (is_sentence_end c && starts_with_space s').
      - now rewrite IHA.
      - apply IHB. }
    split; [exact B |].
    cbn [space_run]. destruct (is_space c) eqn:Hc.
    + cbn [split_go fragments_go andb]. rewrite Hc. exact IHA.
    + rewrite B. cbn [fragments_go andb]. rewrite Hc. reflexivity.
Qed.

Lemma split_sentences (t : jsstring) :
  t <> [] -> split sentence_re t = fragments t.
Proof.
  intros Ht. destruct t as [| c t']; [congruence |].
  unfold split, fragments. apply split_go_fragments.
Qed.

(** The enforcer's three cases. *)
Lemma enforce_cases (t : jsstring) :
  (t = [] /\ enforceMarkdownStructure t = []) \/
  (has_marker t /\ enforceMarkdownStructure t = t) \/
  (t <> [] /\ ~ has_marker t /\
   enforceMarkdownStructure t =
     heading ++ concat (map bullet (nonempty_fragments t))).
Proof.
  unfold enforceMarkdownStructure.
  destruct t as [| c t']; [left; split; reflexivity |].
  right. cbn [is_empty].
  destruct (includes (c :: t') (lit "##") || includes (c :: t') (lit "- ")
            || includes (c :: t') (lit "**")) eqn:E.
  - left. split; [now apply structured_spec | reflexivity].
  - right. split; [discriminate |]. split.
    + intros H. apply structured_spec in H. congruence.
    + cbv zeta. rewrite append_bullets_concat.
      rewrite split_sentences by discriminate. reflexivity.
Qed.

Lemma heading_has_marker (rest : jsstring) : has_marker (heading ++ rest).
Proof.
  left. exists [], (tl (tl heading) ++ rest). reflexivity.
Qed.

Lemma has_marker_enforce (t : jsstring) :
  has_marker t -> enforceMarkdownStructure t = t.
Proof.
  intros H. destruct (enforce_cases t) as [[E1 E2] | [[_ E] | (_ & N & _)]].
  - congruence.
  - exact E.
  - contradiction.
Qed.

(** C7 as stated fails at the empty string: it carries no marker, yet
    the result is the empty string, which does not start with the
    heading. *)
Lemma C7_counterexample :
  ~ has_marker [] /\
  enforceMarkdownStructure [] = [] /\
  ~ (exists rest, enforceMarkdownStructure [] = heading ++ rest).
Proof.
  split; [| split].
  - intros H. apply structured_spec in H. discriminate H.
  - reflexivity.
  - intros [rest H]. discriminate H.
Qed.

(** C7, amended. A text that carries one of the markers ##, "- " or **
    is returned unchanged.  A non-empty text without a marker becomes
    the fixed heading followed by one bullet line ("- ", the trimmed
    fragment, a line feed) per non-empty fragment of the text cut at
    every [.], [?] or [!] that is followed by whitespace.  Any input
    containing **bold** is returned unchanged, and "A. B. C." becomes
    the heading and the bullets A, B and C. (the last mark is followed
    by no whitespace, so it stays). *)
Theorem C7_enforce_structure (t : jsstring) :
  (has_marker t -> enforceMarkdownStructure t = t) /\
  (t <> [] -> ~ has_marker t ->
   enforceMarkdownStructure t =
     heading ++ concat (map bullet (nonempty_fragments t))) /\
  (forall a b,
     enforceMarkdownStructure (a ++ lit "**bold**" ++ b)
     = a ++ lit "**bold**" ++ b) /\
  enforceMarkdownStructure (lit "A. B. C.") =
    heading ++ lit "- A" ++ [LF] ++ lit "- B" ++ [LF] ++ lit "- C." ++ [LF].
Proof.
  split; [| split; [| split]].
  - apply has_marker_enforce.
  - intros Hne Hno.
    destruct (enforce_cases t) as [[E _] | [[M _] | (_ & _ & E)]];
      [congruence | contradiction | exact E].
  - intros a b. apply has_marker_enforce. right; right.
    exists a, (lit "bold**" ++ b). reflexivity.
  - vm_compute. reflexivity.
Qed.

Lemma C7_enforce_structure_witness :
  (lit "Hi there! How are you?  Fine." <> [] /\
   ~ has_marker (lit "Hi there! How are you?  Fine.")) /\
  enforceMarkdownStructure (lit "Hi there! How are you?  Fine.") =
    heading ++ concat (map bullet
      (nonempty_fragments (lit "Hi there! How are you?  Fine."))).
Proof.
  assert (N : ~ has_marker (lit "Hi there! How are you?  Fine.")).
  { intros H. apply structured_spec in H. discriminate H. }
  assert (E : lit "Hi there! How are you?  Fine." <> []) by discriminate.
  split; [split; [exact E | exact N] |].
  exact (proj1 (proj2 (C7_enforce_structure _)) E N).
Defined.

(** C9. The enforcer is idempotent on strings: the empty string maps to
    itself, a text with a marker is returned as it is, and a
    restructured text begins with the ## of the heading, so a second
    pass returns it unchanged. *)
Theorem C9_enforce_idempotent (t : jsstring) :
  enforceMarkdownStructure (enforceMarkdownStructure t)
  = enforceMarkdownStructure t.
Proof.
  destruct (enforce_cases t) as [[_ E] | [[M E] | (_ & _ & E)]]; rewrite E.
  - reflexivity.
  - exact E.
  - apply has_marker_enforce, heading_has_marker.
Qed.

(* ================================================================= *)
(** ** The sanitizer *)

Lemma strip_prefix_ci_suffix (pat s r : jsstring) :
  strip_prefix_ci pat s = Some r ->
  exists p, s = p ++ r /\ length p = length pat.
Proof.
  revert s. induction pat as [| x pat IH]; intros s; simpl.
  - intros [= ->]. now exists [].
  - destruct s as [| c s']; [discriminate |].
    destruct (ci x c); [| discriminate].
    intros H. destruct (IH _ H) as (p & -> & L).
    exists (c :: p). simpl. now rewrite L.
Qed.

Lemma after_first_gt_suffix (s r : jsstring) :
  after_first_gt s = Some r -> exists p, s = p ++ r /\ p <> [].
Proof.
  induction s as [| c s' IH]; simpl; [discriminate |].
  destruct (N.eqb c gt_char).
  - intros [= ->]. now exists [c].
  - destruct (dot c); [| discriminate].
    intros H. destruct (IH H) as (p & -> & _). now exists (c :: p).
Qed.

Lemma after_first_close_cons (c : char16) (s : jsstring) :
  after_first_close (c :: s) =
  match strip_prefix_ci close_tag (c :: s) with
  | Some rest => Some rest
  | None => if dot c then after_first_close s else None
  end.
Proof. reflexivity. Qed.

Lemma after_first_close_suffix (s r : jsstring) :
  after_first_close s = Some r -> exists p, s = p ++ r /\ p <> [].
Proof.
  induction s as [| c s' IH]; [discriminate |].
  rewrite after_first_close_cons.
  destruct (strip_prefix_ci close_tag (c :: s')) as [r' |] eqn:E.
  - intros [= ->]. apply strip_prefix_ci_suffix in E.
    destruct E as (p & -> & L). exists p. split; [reflexivity |].
    intros ->. discriminate L.
  - destruct (dot c); [| discriminate].
    intros H. destruct (IH H) as (p & -> & _). now exists (c :: p).
Qed.

Lemma script_block_suffix (s r : jsstring) :
  script_block s = Some r -> exists p, s = p ++ r /\ p <> [].
Proof.
  unfold script_block, opt_bind.
  destruct (strip_prefix_ci open_tag s) as [s1 |] eqn:E1; [| discriminate].
  destruct (after_first_gt s1) as [s2 |] eqn:E2; [| discriminate].
  intros E3.
  apply strip_prefix_ci_suffix in E1. destruct E1 as (p1 & -> & _).
  apply after_first_gt_suffix in E2. destruct E2 as (p2 & -> & N2).
  apply after_first_close_suffix in E3. destruct E3 as (p3 & -> & _).
  exists (p1 ++ p2 ++ p3). split; [now rewrite <- !app_assoc |].
  destruct p1; [| discriminate]. destruct p2; [congruence | discriminate].
Qed.

(** *** The matcher on the script pattern *)

Lemma ci_gt_char (c : char16) : ci gt_char c = N.eqb c gt_char.
Proof.
  unfold ci, canonicalize, gt_char. simpl.
  destruct ((97 <=? c) && (c <=? 122))%N eqn:E; [| reflexivity].
  apply andb_true_iff in E. destruct E as [E1 E2].
  apply N.leb_le in E1. apply N.leb_le in E2.
  destruct (N.eqb_spec (c - 32) 62), (N.eqb_spec c 62); try reflexivity; lia.
Qed.

Lemma dot_gt_char (c : char16) : N.eqb c gt_char = true -> dot c = true.
Proof. intros H. apply N.eqb_eq in H. now subst c. Qed.

(** A case-insensitive literal in front of a pattern. *)
Lemma match_len_literal_ci (pat : jsstring) (re : regex) (s : jsstring) :
  match_len (literal_ci pat ++ re) s =
  match strip_prefix_ci pat s with
  | Some r => option_map (Nat.add (length pat)) (match_len re r)
  | None => None
  end.
Proof.
  revert s. induction pat as [| x pat IH]; intros s; simpl.
  - now destruct (match_len re s).
  - destruct s as [| c s']; [reflexivity |].
    destruct (ci x c); [| reflexivity].
    rewrite IH. destruct (strip_prefix_ci pat s'); [| reflexivity].
    now destruct (match_len re j).
Qed.

Lemma consumed_app (p r : jsstring) : consumed (p ++ r) r = length p.
Proof. unfold consumed. rewrite length_app. lia. Qed.

Lemma consumed_cons (c : char16) (p r : jsstring) :
  consumed (c :: p ++ r) r = S (consumed (p ++ r) r).
Proof. unfold consumed. cbn [length]. rewrite length_app. lia. Qed.

Lemma match_close_tag (s : jsstring) :
  match_len (literal_ci close_tag) s =
  option_map (consumed s) (strip_prefix_ci close_tag s).
Proof.
  rewrite <- (app_nil_r (literal_ci close_tag)), match_len_literal_ci.
  destruct (strip_prefix_ci close_tag s) as [r |] eqn:E; [| reflexivity].
  apply strip_prefix_ci_suffix in E. destruct E as (p & -> & L).
  cbn [match_len option_map]. now rewrite consumed_app, L, Nat.add_0_r.
Qed.

(** The second lazy star, up to the closing tag. *)
Lemma lazy_star_close (s : jsstring) :
  lazy_star dot (match_len (literal_ci close_tag)) s =
  option_map (consumed s) (after_first_close s).
Proof.
  induction s as [| c s' IH]; [reflexivity |].
  rewrite after_first_close_cons. cbn [lazy_star].
  rewrite match_close_tag.
  destruct (strip_prefix_ci close_tag (c :: s')) as [r |]; [reflexivity |].
  cbn [option_map]. destruct (dot c); [| reflexivity].
  rewrite IH. destruct (after_first_close s') as [r |] eqn:E; [| reflexivity].
  apply after_first_close_suffix in E. destruct E as (p & -> & _).
  simpl. now rewrite consumed_cons.
Qed.

(** Once no closing tag can be reached from [s], none can be reached
    from behind a later [>] either: backtracking into the first lazy
    star finds nothing new. *)
Lemma no_close_after_gt (s r : jsstring) :
  after_first_close s = None -> after_first_gt s = Some r ->
  after_first_close r = None.
Proof.
  induction s as [| c s' IH]; [discriminate |].
  rewrite after_first_close_cons. cbn [after_first_gt].
  destruct (strip_prefix_ci close_tag (c :: s')); [discriminate |].
  destruct (N.eqb c gt_char) eqn:G.
  - rewrite (dot_gt_char c G). now intros H [= <-].
  - destruct (dot c); [| discriminate]. exact IH.
Qed.

(** The first lazy star, up to [>], with the rest of the pattern
    behind it. *)
Lemma lazy_star_gt (s : jsstring) :
  lazy_star dot (match_len after_gt_re) s =
  option_map (consumed s) (opt_bind (after_first_gt s) after_first_close).
Proof.
  induction s as [| c s' IH]; [reflexivity |].
  cbn [lazy_star after_first_gt].
  unfold after_gt_re at 1. cbn [match_len].
  rewrite ci_gt_char, lazy_star_close.
  destruct (N.eqb c gt_char) eqn:G.
  - cbn [opt_bind].
    destruct (after_first_close s') as [r |] eqn:E.
    + apply after_first_close_suffix in E. destruct E as (p & -> & _).
      simpl. now rewrite consumed_cons.
    + cbn [option_map]. rewrite (dot_gt_char c G), IH.
      destruct (after_first_gt s') as [r |] eqn:E2; [| reflexivity].
      cbn [opt_bind]. now rewrite (no_close_after_gt s' E E2).
  - destruct (dot c); [| reflexivity].
    rewrite IH.
    destruct (after_first_gt s') as [r1 |] eqn:E1; [| reflexivity].
    cbn [opt_bind].
    destruct (after_first_close r1) as [r |] eqn:E; [| reflexivity].
    apply after_first_gt_suffix in E1. destruct E1 as (p1 & -> & _).
    apply after_first_close_suffix in E. destruct E as (p & -> & _).
    simpl. rewrite app_assoc. now rewrite consumed_cons.
Qed.

(** The regular expression of the source finds exactly the
    specification's script-tag blocks. *)
Lemma match_script_re (s : jsstring) :
  match_len script_re s = option_map (consumed s) (script_block s).
Proof.
  unfold script_re, script_block.
  rewrite match_len_literal_ci.
  destruct (strip_prefix_ci open_tag s) as [s1 |] eqn:E1; [| reflexivity].
  cbn [opt_bind app match_len]. fold after_gt_re. rewrite lazy_star_gt.
  destruct (opt_bind (after_first_gt s1) after_first_close) as [r |] eqn:E;
    [| reflexivity].
  apply strip_prefix_ci_suffix in E1. destruct E1 as (p1 & -> & L1).
  assert (exists p, s1 = p ++ r) as (p & ->).
  { unfold opt_bind in E. destruct (after_first_gt s1) as [s2 |] eqn:E2;
      [| discriminate].
    apply after_first_gt_suffix in E2. destruct E2 as (p2 & -> & _).
    apply after_first_close_suffix in E. destruct E as (p3 & -> & _).
    exists (p2 ++ p3). now rewrite app_assoc. }
  cbn [option_map]. rewrite consumed_app.
  rewrite (app_assoc p1 p r), consumed_app, length_app, L1. reflexivity.
Qed.

Lemma replace_go_skip (re : regex) (p r : jsstring) :
  replace_go re (p ++ r) (length p) = replace_go re r 0.
Proof.
  induction p as [| c p IH]; [reflexivity |]. exact IH.
Qed.

(** Global replacement by the script pattern is the left-to-right
    removal of script-tag blocks. *)
Lemma replace_script_blocks (fuel : nat) (s : jsstring) :
  length s <= fuel ->
  replace_all script_re s = remove_script_blocks_fuel fuel s.
Proof.
  unfold replace_all. revert s.
  induction fuel as [| fuel IH]; intros s Hlen.
  - destruct s; [reflexivity | simpl in Hlen; lia].
  - destruct s as [| c s']; [reflexivity |].
    cbn [replace_go remove_script_blocks_fuel].
    rewrite match_script_re.
    destruct (script_block (c :: s')) as [r |] eqn:E.
    + apply script_block_suffix in E. destruct E as (p & Hp & Hne).
      destruct p as [| c' p']; [congruence |].
      simpl in Hp. injection Hp as <- ->.
      cbn [option_map]. rewrite consumed_cons, consumed_app.
      rewrite replace_go_skip. apply IH.
      simpl in Hlen. rewrite length_app in Hlen. lia.
    + cbn [option_map]. f_equal. apply IH. simpl in Hlen. lia.
Qed.

Lemma replace_angles (s : jsstring) :
  replace_all angle_re s = remove_angles s.
Proof.
  unfold replace_all, remove_angles.
  induction s as [| c s' IH]; [reflexivity |].
  cbn [replace_go filter].
  change (match_len angle_re (c :: s'))
    with (if is_angle c then Some 1 else None).
  destruct (is_angle c); cbn [negb]; [exact IH | now rewrite IH].
Qed.

(** *** Trimming *)

Lemma drop_while_spec (f : char16 -> bool) (s : jsstring) :
  exists l, s = l ++ drop_while f s /\ forallb f l = true /\
            match drop_while f s with c :: _ => f c = false | [] => True end.
Proof.
  induction s as [| c s' (l & E & F & H)]; simpl.
  - now exists [].
  - destruct (f c) eqn:Fc.
    + exists (c :: l). simpl. rewrite Fc, F. repeat split; [congruence | exact H].
    + now exists [].
Qed.

Lemma starts_with_space_false (s : jsstring) :
  match s with c :: _ => is_space c = false | [] => True end ->
  starts_with_space s = false.
Proof. destruct s; simpl; auto. Qed.

(** [trim] cuts a run of whitespace off each end and leaves none. *)
Lemma trim_spec (s : jsstring) :
  exists l r,
    s = l ++ trim s ++ r /\
    forallb is_space l = true /\ forallb is_space r = true /\
    starts_with_space (trim s) = false /\
    starts_with_space (rev (trim s)) = false.
Proof.
  unfold trim.
  destruct (drop_while_spec is_space s) as (l & El & Fl & Hl).
  set (x := drop_while is_space s) in *.
  destruct (drop_while_spec is_space (rev x)) as (r & Er & Fr & Hr).
  set (y := drop_while is_space (rev x)) in *.
  assert (Ex : x = rev y ++ rev r).
  { rewrite <- rev_app_distr, <- Er. now rewrite rev_involutive. }
  exists l, (rev r). repeat split.
  - now rewrite <- Ex.
  - exact Fl.
  - rewrite forallb_forall in *. intros c Hc. apply Fr. now apply in_rev.
  - apply starts_with_space_false.
    destruct (rev y) as [| c y'] eqn:Ey; [exact I |].
    rewrite Ex in Hl. exact Hl.
  - rewrite rev_involutive. now apply starts_with_space_false.
Qed.

(** C3 as stated fails on its second example: only the angle brackets
    of a tag other than script are deleted, so the tag names and the
    slash stay. *)
Lemma C3_counterexample :
  sanitize (lit "<b>hi</b>") = lit "bhi/b" /\
  sanitize (lit "<b>hi</b>") <> lit "hib".
Proof.
  split; [vm_compute; reflexivity | vm_compute; discriminate].
Qed.

(** C3, amended. [sanitize] removes, scanning from left to right, every
    script-tag block (case-insensitive [<script], the nearest [>], the
    nearest closing tag, as short as possible), then deletes every
    remaining [<] and [>], then trims: the result is what is left when
    a run of whitespace is cut off each end, and has whitespace at
    neither end.  In particular the script example gives "hello", and
    "<b>hi</b>" gives "bhi/b". *)
Theorem C3_sanitize_computes :
  (forall t : jsstring,
     sanitize t = trim (remove_angles (remove_script_blocks t)) /\
     exists l r,
       remove_angles (remove_script_blocks t) = l ++ sanitize t ++ r /\
       forallb is_space l = true /\ forallb is_space r = true /\
       starts_with_space (sanitize t) = false /\
       starts_with_space (rev (sanitize t)) = false) /\
  sanitize (lit "<script>alert(1)</script>hello") = lit "hello" /\
  sanitize (lit "<b>hi</b>") = lit "bhi/b".
Proof.
  assert (E : forall t,
             sanitize t = trim (remove_angles (remove_script_blocks t))).
  { intros t. unfold sanitize, remove_script_blocks.
    rewrite (@replace_script_blocks (length t) t) by lia.
    now rewrite replace_angles. }
  split; [| split].
  - intros t. split; [apply E |]. rewrite E. apply trim_spec.
  - vm_compute. reflexivity.
  - vm_compute. reflexivity.
Qed.

(* ================================================================= *)
(** ** Sample runs *)

(** The wildcards of the script pattern do not cross a line terminator:
    a block spread over several lines only loses its angle brackets. *)
Example sanitize_multiline_script :
  sanitize (lit "<script>" ++ [LF] ++ lit "x()" ++ [LF] ++ lit "</script>ok")
  = lit "script" ++ [LF] ++ lit "x()" ++ [LF] ++ lit "/scriptok".
Proof. vm_compute. reflexivity. Qed.

(** Any letter case, attributes in the opening tag, several blocks. *)
Example sanitize_mixed_case :
  sanitize (lit "<SCRIPT src=x>aa</script><script>b</ScRiPt>  x > y ")
  = lit "x  y".
Proof. vm_compute. reflexivity. Qed.

(** The removal is one pass: a block put together by the removal of
    another one stays, without its brackets. *)
Example sanitize_single_pass :
  sanitize (lit "<scr<script></script>ipt>a</script>")
  = lit "scripta/script".
Proof. vm_compute. reflexivity. Qed.

(** A separator at the very end leaves an empty last piece, which the
    filter drops. *)
Example split_trailing_separator :
  split sentence_re (lit "a. ") = [lit "a"; []].
Proof. vm_compute. reflexivity. Qed.

(** A text of whitespace alone is one fragment, trimmed to nothing. *)
Example enforce_blank :
  enforceMarkdownStructure (lit "   ") = heading ++ lit "- " ++ [LF].
Proof. vm_compute. reflexivity. Qed.

(** A truthy [system] that is not a string makes [sanitize] throw before
    anything is pushed: status 500, state untouched. *)
Example handleChat_system_not_a_string :
  handleChat (answers (Some (lit "ok")))
             (request_of (JsString (lit "hi")) (JsNumber 5)) fresh
  = (Returned (mkResponse 500 server_error_reply), fresh).
Proof. vm_compute. reflexivity. Qed.

(** A full round trip: the reply is restructured, both turns are kept. *)
Example handleChat_round_trip :
  handleChat (answers (Some (lit "Fine. Thanks!")))
             (request_of (JsString (lit " hello ")) JsUndefined) fresh
  = (Returned (mkResponse 200
                 (heading ++ lit "- Fine" ++ [LF] ++ lit "- Thanks!" ++ [LF])),
     mkServer [mkTurn user (lit "hello");
               mkTurn assistant
                 (heading ++ lit "- Fine" ++ [LF] ++ lit "- Thanks!" ++ [LF])]
              [[mkTurn user (lit "hello")]]).
Proof. vm_compute. reflexivity. Qed.

(* ================================================================= *)
(** ** Further properties of the sanitizer *)

(** The three stages, against the direct definitions. *)
Lemma sanitize_stages (t : jsstring) :
  sanitize t = trim (remove_angles (remove_script_blocks t)).
Proof.
  unfold sanitize, remove_script_blocks.
  rewrite (@replace_script_blocks (length t) t) by lia.
  now rewrite replace_angles.
Qed.

Lemma angle_free_app (a b : jsstring) :
  angle_free (a ++ b) = angle_free a && angle_free b.
Proof. apply forallb_app. Qed.

Lemma remove_angles_angle_free (s : jsstring) :
  angle_free (remove_angles s) = true.
Proof.
  unfold angle_free, remove_angles. apply forallb_forall.
  intros c Hc. apply filter_In in Hc. tauto.
Qed.

Lemma remove_angles_clean (s : jsstring) :
  angle_free s = true -> remove_angles s = s.
Proof.
  unfold angle_free, remove_angles. induction s as [| c s' IH]; simpl.
  - reflexivity.
  - intros H. apply andb_true_iff in H. destruct H as [Hc Hs].
    rewrite Hc. now rewrite IH.
Qed.

Lemma trim_angle_free (s : jsstring) :
  angle_free s = true -> angle_free (trim s) = true.
Proof.
  intros H. destruct (trim_spec s) as (l & r & E & _).
  rewrite E in H. rewrite !angle_free_app in H.
  apply andb_true_iff in H. destruct H as [_ H].
  apply andb_true_iff in H. tauto.
Qed.

Lemma sanitize_angle_free (t : jsstring) :
  angle_free (sanitize t) = true.
Proof.
  rewrite sanitize_stages. apply trim_angle_free, remove_angles_angle_free.
Qed.

(** X1. The result of [sanitize] never contains [<] or [>], whatever
    the input. *)
Theorem X1_sanitize_leaves_no_angle_bracket (t : jsstring) :
  ~ In lt_char (sanitize t) /\ ~ In gt_char (sanitize t).
Proof.
  pose proof (sanitize_angle_free t) as H. unfold angle_free in H.
  rewrite forallb_forall in H.
  split; intros Hin; specialize (H _ Hin); discriminate H.
Qed.

Lemma ci_lt_char (c : char16) : ci lt_char c = N.eqb c lt_char.
Proof.
  unfold ci, canonicalize, lt_char. simpl.
  destruct ((97 <=? c) && (c <=? 122))%N eqn:E; [| reflexivity].
  apply andb_true_iff in E. destruct E as [E1 E2].
  apply N.leb_le in E1. apply N.leb_le in E2.
  destruct (N.eqb_spec (c - 32) 60), (N.eqb_spec c 60); try reflexivity; lia.
Qed.

(** No match of the script pattern starts at a character other
    than [<]. *)
Lemma match_script_re_not_lt (c : char16) (s : jsstring) :
  N.eqb c lt_char = false -> match_len script_re (c :: s) = None.
Proof.
  intros H.
  change (match_len script_re (c :: s))
    with (if ci lt_char c
          then option_map S (match_len (tl script_re) s) else None).
  now rewrite ci_lt_char, H.
Qed.

(** A stretch without [<] in front of a text is copied by the first
    stage. *)
Lemma replace_script_prefix (pre s : jsstring) :
  char_free lt_char pre = true ->
  replace_all script_re (pre ++ s) = pre ++ replace_all script_re s.
Proof.
  unfold replace_all, char_free.
  induction pre as [| c pre IH]; [reflexivity |].
  cbn [forallb]. intros H. apply andb_true_iff in H. destruct H as [Hc Hp].
  apply negb_true_iff in Hc.
  cbn [app replace_go]. rewrite match_script_re_not_lt by exact Hc.
  now rewrite IH.
Qed.

Lemma angle_free_char_free (s : jsstring) :
  angle_free s = true -> char_free lt_char s = true.
Proof.
  unfold angle_free, char_free. rewrite !forallb_forall.
  intros H c Hc. specialize (H c Hc). unfold is_angle in H.
  apply negb_true_iff in H. apply orb_false_iff in H.
  apply negb_true_iff. tauto.
Qed.

Lemma replace_script_clean (s : jsstring) :
  char_free lt_char s = true -> replace_all script_re s = s.
Proof.
  intros H. rewrite <- (app_nil_r s) at 1.
  rewrite replace_script_prefix by exact H. cbn. apply app_nil_r.
Qed.

Lemma drop_while_fixed (f : char16 -> bool) (s : jsstring) :
  match s with c :: _ => f c = false | [] => True end ->
  drop_while f s = s.
Proof. destruct s as [| c s']; simpl; [reflexivity |]. now intros ->. Qed.

Lemma starts_with_space_head (s : jsstring) :
  starts_with_space s = false ->
  match s with c :: _ => is_space c = false | [] => True end.
Proof. destruct s; simpl; auto. Qed.

(** A text with whitespace at neither end is its own trimmed form. *)
Lemma trim_fixed (s : jsstring) :
  starts_with_space s = false -> starts_with_space (rev s) = false ->
  trim s = s.
Proof.
  intros H1 H2. unfold trim.
  rewrite (drop_while_fixed is_space s) by now apply starts_with_space_head.
  rewrite (drop_while_fixed is_space (rev s))
    by now apply starts_with_space_head.
  apply rev_involutive.
Qed.

Lemma trim_idempotent (s : jsstring) : trim (trim s) = trim s.
Proof.
  destruct (trim_spec s) as (l & r & _ & _ & _ & H1 & H2).
  now apply trim_fixed.
Qed.

Lemma sanitize_clean_text (t : jsstring) :
  angle_free t = true -> sanitize t = trim t.
Proof.
  intros H. unfold sanitize.
  rewrite replace_script_clean by now apply angle_free_char_free.
  now rewrite replace_angles, remove_angles_clean.
Qed.

(** X3. On a text without angle brackets [sanitize] only trims; when
    the text has whitespace at neither end either, it is returned
    unchanged. *)
Theorem X3_sanitize_clean_text (t : jsstring) :
  angle_free t = true ->
  sanitize t = trim t /\
  (starts_with_space t = false -> starts_with_space (rev t) = false ->
   sanitize t = t).
Proof.
  intros H. rewrite sanitize_clean_text by exact H.
  split; [reflexivity | apply trim_fixed].
Qed.

Lemma X3_sanitize_clean_text_witness :
  angle_free (lit "  ask me  ") = true /\
  sanitize (lit "  ask me  ") = trim (lit "  ask me  ").
Proof.
  split; [reflexivity |].
  exact (proj1 (@X3_sanitize_clean_text (lit "  ask me  ") eq_refl)).
Defined.

(** X2. [sanitize] is idempotent: a sanitized text has no bracket left
    and no whitespace at its ends, so a second pass returns it. *)
Theorem X2_sanitize_idempotent (t : jsstring) :
  sanitize (sanitize t) = sanitize t.
Proof.
  rewrite (@sanitize_clean_text (sanitize t)) by apply sanitize_angle_free.
  rewrite sanitize_stages. apply trim_idempotent.
Qed.

(** *** Only deletions *)

Lemma subseq_refl (s : jsstring) : subseq s s.
Proof.
  induction s; [apply subseq_nil | now apply subseq_keep].
Qed.

Lemma subseq_trans (a b c : jsstring) :
  subseq a b -> subseq b c -> subseq a c.
Proof.
  intros Hab Hbc. revert a Hab.
  induction Hbc as [| x b c Hbc IH | x b c Hbc IH]; intros a Hab.
  - exact Hab.
  - apply subseq_drop. now apply IH.
  - inversion Hab; subst.
    + apply subseq_drop. now apply IH.
    + apply subseq_keep. now apply IH.
Qed.

Lemma subseq_app_l (l s t : jsstring) : subseq s t -> subseq s (l ++ t).
Proof.
  intros H. induction l; simpl; [exact H | now apply subseq_drop].
Qed.

Lemma subseq_app_r (s r : jsstring) : subseq s (s ++ r).
Proof.
  induction s as [| c s IH]; simpl.
  - induction r; [apply subseq_nil | now apply subseq_drop].
  - now apply subseq_keep.
Qed.

Lemma subseq_length (s t : jsstring) : subseq s t -> length s <= length t.
Proof. induction 1; simpl; lia. Qed.

Lemma subseq_replace_go (re : regex) (s : jsstring) (skip : nat) :
  subseq (replace_go re s skip) s.
Proof.
  revert skip. induction s as [| c s' IH]; intros skip; cbn [replace_go].
  - apply subseq_nil.
  - destruct skip as [| k]; [| apply subseq_drop, IH].
    destruct (match_len re (c :: s')) as [[| n] |].
    + apply subseq_keep, IH.
    + apply subseq_drop, IH.
    + apply subseq_keep, IH.
Qed.

Lemma subseq_trim (s : jsstring) : subseq (trim s) s.
Proof.
  destruct (trim_spec s) as (l & r & E & _).
  rewrite E at 2. apply subseq_app_l, subseq_app_r.
Qed.

(** X4. [sanitize] only deletes characters: its result is the input
    with some characters left out, in the same order, and so it is
    never longer than the input. *)
Theorem X4_sanitize_only_deletes (t : jsstring) :
  subseq (sanitize t) t /\ length (sanitize t) <= length t.
Proof.
  assert (H : subseq (sanitize t) t).
  { unfold sanitize, replace_all.
    eapply subseq_trans; [apply subseq_trim |].
    eapply subseq_trans; apply subseq_replace_go. }
  split; [exact H | now apply subseq_length].
Qed.

(** *** A script element on one line *)

Lemma strip_prefix_ci_app (pat o rest : jsstring) :
  same_ignoring_case pat o -> strip_prefix_ci pat (o ++ rest) = Some rest.
Proof.
  unfold same_ignoring_case. revert o.
  induction pat as [| p pat IH]; intros o; cbn [strip_prefix_ci].
  - now intros [= ->].
  - destruct o as [| c o']; [discriminate |]. cbn [app].
    destruct (ci p c); [apply IH | discriminate].
Qed.

Lemma after_first_gt_app (attrs rest : jsstring) :
  line_free attrs = true -> char_free gt_char attrs = true ->
  after_first_gt (attrs ++ gt_char :: rest) = Some rest.
Proof.
  unfold line_free, char_free.
  induction attrs as [| c attrs IH]; cbn [forallb app after_first_gt].
  - intros _ _. now rewrite N.eqb_refl.
  - intros H1 H2.
    apply andb_true_iff in H1. destruct H1 as [Hd H1].
    apply andb_true_iff in H2. destruct H2 as [Hg H2].
    apply negb_true_iff in Hg. rewrite Hg, Hd. now apply IH.
Qed.

Lemma after_first_close_hit (s r : jsstring) :
  strip_prefix_ci close_tag s = Some r -> after_first_close s = Some r.
Proof.
  intros H. destruct s as [| c s'].
  - discriminate H.
  - now rewrite after_first_close_cons, H.
Qed.

Lemma close_tag_needs_lt (c : char16) (s : jsstring) :
  N.eqb c lt_char = false -> strip_prefix_ci close_tag (c :: s) = None.
Proof.
  intros H.
  change (strip_prefix_ci close_tag (c :: s))
    with (if ci lt_char c then strip_prefix_ci (tl close_tag) s else None).
  now rewrite ci_lt_char, H.
Qed.

Lemma after_first_close_app (body c post : jsstring) :
  line_free body = true -> char_free lt_char body = true ->
  same_ignoring_case close_tag c ->
  after_first_close (body ++ c ++ post) = Some post.
Proof.
  unfold line_free, char_free. intros H1 H2 Hc.
  induction body as [| x body IH]; cbn [app].
  - apply after_first_close_hit. now apply strip_prefix_ci_app.
  - cbn [forallb] in H1, H2.
    apply andb_true_iff in H1. destruct H1 as [Hd H1].
    apply andb_true_iff in H2. destruct H2 as [Hl H2].
    apply negb_true_iff in Hl.
    rewrite after_first_close_cons, close_tag_needs_lt by exact Hl.
    rewrite Hd. now apply IH.
Qed.

Lemma script_block_element (o attrs body c post : jsstring) :
  same_ignoring_case open_tag o ->
  line_free attrs = true -> char_free gt_char attrs = true ->
  line_free body = true -> char_free lt_char body = true ->
  same_ignoring_case close_tag c ->
  script_block (o ++ attrs ++ [gt_char] ++ body ++ c ++ post) = Some post.
Proof.
  intros Ho Ha1 Ha2 Hb1 Hb2 Hc. unfold script_block.
  rewrite strip_prefix_ci_app by exact Ho. cbn [opt_bind app].
  rewrite after_first_gt_app by assumption. cbn [opt_bind].
  now apply after_first_close_app.
Qed.

(** A block at the start of a text is dropped by the first stage, which
    then goes on behind it. *)
Lemma replace_script_block (s post : jsstring) :
  script_block s = Some post ->
  replace_all script_re s = replace_all script_re post.
Proof.
  intros H. unfold replace_all.
  destruct (script_block_suffix s H) as (b & -> & Hb).
  destruct b as [| x b']; [congruence |].
  cbn [app replace_go]. rewrite match_script_re.
  change (x :: b' ++ post) with ((x :: b') ++ post). rewrite H.
  cbn [option_map]. rewrite consumed_app. cbn [length].
  now rewrite replace_go_skip.
Qed.

(** X5. A script element written on one line is removed with its
    content: after a stretch [pre] without [<], the opening tag in any
    letter case, attributes without [>], the [>], a body without [<],
    and the closing tag in any letter case leave no trace in the
    result. *)
Theorem X5_sanitize_removes_script_element
    (pre o attrs body c post : jsstring) :
  char_free lt_char pre = true ->
  same_ignoring_case open_tag o ->
  line_free attrs = true -> char_free gt_char attrs = true ->
  line_free body = true -> char_free lt_char body = true ->
  same_ignoring_case close_tag c ->
  sanitize (pre ++ o ++ attrs ++ [gt_char] ++ body ++ c ++ post)
  = sanitize (pre ++ post).
Proof.
  intros Hp Ho Ha1 Ha2 Hb1 Hb2 Hc. unfold sanitize.
  rewrite (@replace_script_prefix pre post) by exact Hp.
  rewrite replace_script_prefix by exact Hp.
  rewrite (@replace_script_block
             (o ++ attrs ++ [gt_char] ++ body ++ c ++ post) post)
    by now apply script_block_element.
  reflexivity.
Qed.

Lemma X5_sanitize_removes_script_element_witness :
  sanitize (lit "hi " ++ lit "<ScRipT" ++ lit " src='x'" ++ [gt_char]
            ++ lit "alert(1 > 0)" ++ lit "</SCRIPT>" ++ lit " there")
  = sanitize (lit "hi " ++ lit " there").
Proof.
  apply (@X5_sanitize_removes_script_element (lit "hi ") (lit "<ScRipT")
           (lit " src='x'") (lit "alert(1 > 0)") (lit "</SCRIPT>")
           (lit " there")); reflexivity.
Defined.

(* ================================================================= *)
(** ** Further properties of the structure enforcer *)

Lemma has_marker_nonempty (t : jsstring) : has_marker t -> t <> [].
Proof.
  intros H ->. apply structured_spec in H. discriminate H.
Qed.

(** X6. The enforcer returns the empty string only for the empty
    string; every other result carries one of the markers, whatever the
    text was. *)
Theorem X6_enforce_always_structured (t : jsstring) :
  (enforceMarkdownStructure t = [] <-> t = []) /\
  (t <> [] -> has_marker (enforceMarkdownStructure t)).
Proof.
  destruct (enforce_cases t) as [[E1 E2] | [[M E] | (N & _ & E)]].
  - split; [now rewrite E2 | congruence].
  - rewrite E. split; [| now intros _].
    split; intros H; [exact H | exact H].
  - rewrite E. split.
    + split; [discriminate | congruence].
    + intros _. apply heading_has_marker.
Qed.

Lemma X6_enforce_always_structured_witness :
  lit "plain words" <> [] /\
  has_marker (enforceMarkdownStructure (lit "plain words")).
Proof.
  assert (N : lit "plain words" <> []) by discriminate.
  split; [exact N |].
  exact (proj2 (X6_enforce_always_structured (lit "plain words")) N).
Defined.

(** Without a separator the scan yields the text as its only
    fragment. *)
Lemma fragments_go_no_separator (s acc : jsstring) :
  has_separator s = false ->
  fragments_go s false acc = [rev acc ++ s].
Proof.
  revert acc. induction s as [| c s' IH]; intros acc H.
  - cbn. now rewrite app_nil_r.
  - cbn [has_separator] in H. apply orb_false_iff in H.
    destruct H as [H1 H2].
    cbn [fragments_go andb]. rewrite H1, IH by exact H2.
    cbn [rev]. now rewrite <- app_assoc.
Qed.

(** X7. A non-empty text without a marker and without a sentence break
    (no [.], [?] or [!] followed by whitespace) becomes the heading and
    a single bullet holding the trimmed text. *)
Theorem X7_enforce_single_sentence (t : jsstring) :
  t <> [] -> ~ has_marker t -> has_separator t = false ->
  enforceMarkdownStructure t = heading ++ lit "- " ++ trim t ++ [LF].
Proof.
  intros Hne Hno Hsep.
  destruct (enforce_cases t) as [[E _] | [[M _] | (_ & _ & E)]];
    [congruence | contradiction |].
  rewrite E. unfold nonempty_fragments, fragments.
  rewrite fragments_go_no_separator by exact Hsep. cbn [rev app filter].
  destruct t as [| c t']; [congruence |].
  cbn [is_empty negb map concat]. unfold bullet.
  now rewrite app_nil_r.
Qed.

Lemma X7_enforce_single_sentence_witness :
  enforceMarkdownStructure (lit "  v1.2 is out!") =
  heading ++ lit "- " ++ trim (lit "  v1.2 is out!") ++ [LF].
Proof.
  apply (@X7_enforce_single_sentence (lit "  v1.2 is out!")).
  - discriminate.
  - intros H. apply structured_spec in H. discriminate H.
  - reflexivity.
Defined.

(* ================================================================= *)
(** ** Further properties of the chat handler *)

(** A falsy [system] field is not looked at any further. *)
Lemma handleChat_falsy_system (groq : Provider) (message sy : JsValue)
    (st : Server) :
  truthy sy = false ->
  handleChat groq (request_of message sy) st
  = handleChat groq (request_of message JsUndefined) st.
Proof.
  intros H. unfold handleChat, try_catch, body_field, request_of.
  cbn [Req.body Req.message Req.system]. rewrite H. reflexivity.
Qed.


(** A truthy [system] that is not a string makes [sanitize] throw. *)
Lemma handleChat_system_not_string (groq : Provider) (msg : jsstring)
    (sy : JsValue) (st : Server) :
  msg <> [] -> truthy sy = true -> is_string sy = false ->
  handleChat groq (request_of (JsString msg) sy) st
  = (Returned (mkResponse 500 server_error_reply), st).
Proof.
  intros Hm Ht Hs. destruct msg as [| c msg']; [congruence |].
  unfold handleChat, try_catch, body_field, request_of.
  cbn [Req.body Req.message Req.system truthy is_string is_empty negb orb].
  rewrite Ht.
  destruct sy; try discriminate Hs; try discriminate Ht; reflexivity.
Qed.


(** Every request falls in one of three classes, which fix what the
    handler does. *)
Lemma handleChat_cases (groq : Provider) (req : Req.Request) (st : Server) :
  (message_missing_or_invalid req /\
   handleChat groq req st
   = (Returned (mkResponse 400 invalid_request_reply), st)) \/
  (exists msg sy,
     req = request_of (JsString msg) sy /\ msg <> [] /\
     truthy sy = true /\ is_string sy = false /\
     handleChat groq req st
     = (Returned (mkResponse 500 server_error_reply), st)) \/
  (exists msg sy sys,
     req = request_of (JsString msg) sy /\ msg <> [] /\
     (sy = JsString sys \/ truthy sy = false /\ sys = []) /\
     let memory := pushToMemory user (sanitize msg) (chatMemory st) in
     let messages := expected_messages (Some sys) memory in
     let calls := providerCalls st ++ [messages] in
     handleChat groq req st =
       match groq messages with
       | Groq.Rejects =>
           (Returned (mkResponse 500 server_error_reply),
            mkServer memory calls)
       | Groq.Resolves completion =>
           let aiReply :=
             enforceMarkdownStructure
               (or_else (first_content completion) empty_response_reply) in
           (Returned (mkResponse 200 aiReply),
            mkServer (pushToMemory assistant aiReply memory) calls)
       end).
Proof.
  destruct req as [[[m sy] |]].
  2: { left. split; [now left | now apply handleChat_invalid; left]. }
  destruct (is_string m) eqn:Hm.
  2: { left. assert (I : message_missing_or_invalid
                           (Req.mkRequest (Some (Req.mkBody m sy))))
         by (right; left; exact Hm).
       split; [exact I | now apply handleChat_invalid]. }
  destruct m as [| | b | n | msg |]; try discriminate Hm.
  destruct msg as [| c msg'].
  { left. assert (I : message_missing_or_invalid
                        (Req.mkRequest (Some (Req.mkBody (JsString []) sy))))
      by (right; right; reflexivity).
    split; [exact I | now apply handleChat_invalid]. }
  right.
  assert (Hne : c :: msg' <> []) by discriminate.
  destruct (truthy sy) eqn:Ht.
  - destruct (is_string sy) eqn:Hs.
    + right. destruct sy as [| | b | n | sys |]; try discriminate Hs.
      exists (c :: msg'), (JsString sys), sys.
      split; [reflexivity |]. split; [exact Hne |]. split; [now left |].
      apply (@handleChat_valid groq _ (c :: msg') (Some sys) st).
      split; [exact Hne | reflexivity].
    + left. exists (c :: msg'), sy.
      split; [reflexivity |]. split; [exact Hne |].
      split; [exact Ht |]. split; [exact Hs |].
      now apply handleChat_system_not_string.
  - right. exists (c :: msg'), sy, [].
    split; [reflexivity |]. split; [exact Hne |]. split; [now right |].
    change (Req.mkRequest (Some (Req.mkBody (JsString (c :: msg')) sy)))
      with (request_of (JsString (c :: msg')) sy).
    rewrite handleChat_falsy_system by exact Ht.
    apply (@handleChat_valid groq _ (c :: msg') None st).
    split; [exact Hne | reflexivity].
Qed.

Lemma or_else_nonempty (v : option jsstring) (d : jsstring) :
  d <> [] -> or_else v d <> [].
Proof.
  intros Hd. unfold or_else. destruct v as [s |]; [| exact Hd].
  destruct s; [exact Hd | discriminate].
Qed.

Lemma enforce_nonempty_has_marker (t : jsstring) :
  t <> [] -> has_marker (enforceMarkdownStructure t).
Proof.
  intros Hne.
  destruct (enforce_cases t) as [[E _] | [[M E] | (_ & _ & E)]]; rewrite ?E.
  - congruence.
  - exact M.
  - apply heading_has_marker.
Qed.

Lemma fixed_replies_have_marker :
  has_marker invalid_request_reply /\ has_marker server_error_reply /\
  has_marker empty_response_reply.
Proof. repeat split; apply structured_spec; reflexivity. Qed.

Lemma usable_message_not_invalid (msg : jsstring) (sy : JsValue) :
  msg <> [] ->
  ~ message_missing_or_invalid (request_of (JsString msg) sy).
Proof.
  intros Hne [H | [H | H]]; cbn in H; try discriminate H.
  injection H as ->. congruence.
Qed.

(** What a request leaves behind: the response, the turns pushed and
    the message lists sent (at most one). *)
Lemma handleChat_effect (groq : Provider) (req : Req.Request) (st : Server) :
  exists resp pushes sent,
    handleChat groq req st
    = (Returned resp,
       mkServer (push_all pushes (chatMemory st))
                (providerCalls st ++ sent)) /\
    has_marker (reply resp) /\
    (status resp = 400 <-> message_missing_or_invalid req) /\
    (status resp = 400 /\ pushes = [] /\ sent = [] \/
     status resp = 500 /\ pushes = [] /\ sent = [] \/
     exists msg sys,
       msg <> [] /\ Req.body req <> None /\
       body_field Req.message req = JsString msg /\
       let memory := pushToMemory user (sanitize msg) (chatMemory st) in
       sent = [expected_messages (Some sys) memory] /\
       (status resp = 500 /\ pushes = [(user, sanitize msg)] \/
        status resp = 200 /\ reply resp <> [] /\
        pushes = [(user, sanitize msg); (assistant, reply resp)])).
Proof.
  destruct fixed_replies_have_marker as (M400 & M500 & Mempty).
  destruct (handleChat_cases groq req st)
    as [[I E] | [(msg & sy & -> & Hne & Ht & Hs & E)
               | (msg & sy & sys & -> & Hne & Hsy & E)]].
  - exists (mkResponse 400 invalid_request_reply), [], [].
    rewrite E, app_nil_r. destruct st; cbn.
    repeat split; auto.
  - exists (mkResponse 500 server_error_reply), [], [].
    rewrite E, app_nil_r. destruct st; cbn.
    split; [reflexivity |]. split; [exact M500 |]. split.
    + split; [discriminate |].
      intros I. now apply usable_message_not_invalid in I.
    + right; left. auto.
  - cbv zeta in E. rewrite E. clear E.
    set (memory := pushToMemory user (sanitize msg) (chatMemory st)).
    destruct (groq (expected_messages (Some sys) memory)) as [| completion].
    + exists (mkResponse 500 server_error_reply), [(user, sanitize msg)],
        [expected_messages (Some sys) memory].
      split; [reflexivity |]. split; [exact M500 |]. split.
      * split; [discriminate |].
        intros I. now apply usable_message_not_invalid in I.
      * right; right. exists msg, sys.
        split; [exact Hne |]. split; [discriminate |].
        split; [reflexivity |]. cbv zeta. fold memory.
        split; [reflexivity |]. left. auto.
    + cbv zeta.
      set (aiReply := enforceMarkdownStructure
                        (or_else (first_content completion)
                                 empty_response_reply)).
      assert (Hm : has_marker aiReply).
      { apply enforce_nonempty_has_marker, or_else_nonempty. discriminate. }
      exists (mkResponse 200 aiReply),
        [(user, sanitize msg); (assistant, aiReply)],
        [expected_messages (Some sys) memory].
      split; [reflexivity |]. split; [exact Hm |]. split.
      * split; [discriminate |].
        intros I. now apply usable_message_not_invalid in I.
      * right; right. exists msg, sys.
        split; [exact Hne |]. split; [discriminate |].
        split; [reflexivity |]. cbv zeta. fold memory.
        split; [reflexivity |]. right.
        split; [reflexivity |]. split; [| reflexivity].
        now apply has_marker_nonempty.
Qed.

Lemma pushToMemory_Forall (P : ChatTurn -> Prop) (r : Role) (c : jsstring)
    (m : list ChatTurn) :
  Forall P m -> P (mkTurn r c) -> Forall P (pushToMemory r c m).
Proof.
  intros Hm Ht.
  assert (H : Forall P (m ++ [mkTurn r c]))
    by (apply Forall_app; split; [exact Hm | now constructor]).
  unfold pushToMemory. destruct (_ <? _); [| exact H].
  destruct (m ++ [mkTurn r c]); [constructor | now inversion H].
Qed.

Lemma push_all_Forall (P : ChatTurn -> Prop)
    (pushes : list (Role * jsstring)) (m : list ChatTurn) :
  Forall P m -> Forall P (turns_of pushes) -> Forall P (push_all pushes m).
Proof.
  revert m. induction pushes as [| [r c] pushes IH]; intros m Hm Hp.
  - exact Hm.
  - inversion Hp; subst. apply IH; [| assumption].
    now apply pushToMemory_Forall.
Qed.

(** X11. With a usable [message], a [system] field that is truthy but
    not a string (a number, [true], an object or an array) makes
    [sanitize] throw before anything is pushed or sent: the answer is
    status 500, the buffer is unchanged and no provider call is
    made. *)
Theorem X11_handleChat_system_not_string (groq : Provider)
    (req : Req.Request) (b : Req.Body) (msg : jsstring) (st : Server) :
  Req.body req = Some b ->
  Req.message b = JsString msg -> msg <> [] ->
  truthy (Req.system b) = true -> is_string (Req.system b) = false ->
  let (out, st') := handleChat groq req st in
  out = Returned (mkResponse 500 server_error_reply) /\
  chatMemory st' = chatMemory st /\
  providerCalls st' = providerCalls st.
Proof.
  intros Hb Hm Hne Ht Hs.
  destruct req as [body]. cbn in Hb. subst body.
  destruct b as [m sy]. cbn in Hm, Ht, Hs. subst m.
  change (Req.mkRequest (Some (Req.mkBody (JsString msg) sy)))
    with (request_of (JsString msg) sy).
  rewrite (@handleChat_system_not_string groq msg sy st Hne Ht Hs). auto.
Qed.

Lemma X11_handleChat_system_not_string_witness :
  let (out, st') :=
    handleChat (answers (Some (lit "ok")))
               (request_of (JsString (lit "hi")) JsObject)
               (mkServer [mkTurn user (lit "earlier")] []) in
  out = Returned (mkResponse 500 server_error_reply) /\
  chatMemory st' = [mkTurn user (lit "earlier")] /\
  providerCalls st' = [].
Proof.
  assert (N : lit "hi" <> []) by discriminate.
  exact (@X11_handleChat_system_not_string (answers (Some (lit "ok")))
           (request_of (JsString (lit "hi")) JsObject)
           (Req.mkBody (JsString (lit "hi")) JsObject) (lit "hi")
           (mkServer [mkTurn user (lit "earlier")] [])
           eq_refl eq_refl N eq_refl eq_refl).
Defined.

(** X12. A [system] field that is falsy (null, false, 0 or the empty
    string) is handled exactly as a missing one: same response, same
    buffer, same provider call. *)
Theorem X12_handleChat_falsy_system (groq : Provider) (req : Req.Request)
    (b : Req.Body) (st : Server) :
  Req.body req = Some b ->
  truthy (Req.system b) = false ->
  handleChat groq req st
  = handleChat groq (request_of (Req.message b) JsUndefined) st.
Proof.
  intros Hb Ht. destruct req as [body]. cbn in Hb. subst body.
  destruct b as [m sy]. cbn in Ht |- *.
  change (Req.mkRequest (Some (Req.mkBody m sy))) with (request_of m sy).
  now apply handleChat_falsy_system.
Qed.

Lemma X12_handleChat_falsy_system_witness :
  truthy JsNull = false /\
  handleChat (answers (Some (lit "ok")))
             (request_of (JsString (lit "hi")) JsNull) fresh
  = handleChat (answers (Some (lit "ok")))
               (request_of (JsString (lit "hi")) JsUndefined) fresh.
Proof.
  split; [reflexivity |].
  exact (@X12_handleChat_falsy_system (answers (Some (lit "ok")))
           (request_of (JsString (lit "hi")) JsNull)
           (Req.mkBody (JsString (lit "hi")) JsNull) fresh
           eq_refl eq_refl).
Defined.

(** X10. Whatever the request and the provider's answer, the handler
    answers: the status is 200, 400 or 500, the reply carries a
    markdown marker, and the status is 400 exactly when the [message]
    field is missing, not a string or empty. *)
Theorem X10_handleChat_always_answers (groq : Provider) (req : Req.Request)
    (st : Server) :
  exists resp st',
    handleChat groq req st = (Returned resp, st') /\
    (status resp = 200 \/ status resp = 400 \/ status resp = 500) /\
    has_marker (reply resp) /\
    (status resp = 400 <-> message_missing_or_invalid req).
Proof.
  destruct (handleChat_effect groq req st)
    as (resp & pushes & sent & E & M & I & Hc).
  exists resp, (mkServer (push_all pushes (chatMemory st))
                         (providerCalls st ++ sent)).
  split; [exact E |]. split; [| split; [exact M | exact I]].
  destruct Hc as [(H & _) | [(H & _) | (msg & sys & _ & _ & _ & Hc)]];
    [tauto | tauto |].
  cbv zeta in Hc. destruct Hc as (_ & [(H & _) | (H & _)]); tauto.
Qed.

(** X13. A request makes at most one provider call, and the log of
    earlier calls is only extended: exactly one call when the status is
    200, none when it is 400. *)
Theorem X13_handleChat_calls_provider_at_most_once (groq : Provider)
    (req : Req.Request) (st : Server) :
  exists resp st' sent,
    handleChat groq req st = (Returned resp, st') /\
    providerCalls st' = providerCalls st ++ sent /\
    length sent <= 1 /\
    (status resp = 200 -> length sent = 1) /\
    (status resp = 400 -> sent = []).
Proof.
  destruct (handleChat_effect groq req st)
    as (resp & pushes & sent & E & _ & _ & Hc).
  exists resp, (mkServer (push_all pushes (chatMemory st))
                         (providerCalls st ++ sent)), sent.
  split; [exact E |]. split; [reflexivity |].
  destruct Hc as [(H & _ & ->) | [(H & _ & ->) | (msg & sys & _ & _ & _ & Hc)]].
  - cbn. split; [lia |]. split; [congruence | reflexivity].
  - cbn. split; [lia |]. split; [congruence | reflexivity].
  - cbv zeta in Hc. destruct Hc as (-> & Hs). cbn.
    split; [lia |]. split; [reflexivity |].
    intros H4. destruct Hs as [(H & _) | (H & _)]; congruence.
Qed.

(** X14. The system prompt is never stored: when the buffer holds no
    turn of role system before a request, it holds none afterwards, and
    in every message list sent a system entry can only be the first
    element. *)
Theorem X14_handleChat_never_stores_system (groq : Provider)
    (req : Req.Request) (st : Server) :
  no_system_turn (chatMemory st) ->
  no_system_turn (chatMemory (snd (handleChat groq req st))) /\
  exists sent,
    providerCalls (snd (handleChat groq req st)) = providerCalls st ++ sent /\
    Forall (fun messages => no_system_turn (tl messages)) sent.
Proof.
  intros Hst.
  destruct (handleChat_effect groq req st)
    as (resp & pushes & sent & E & _ & _ & Hc).
  rewrite E. cbn [snd chatMemory providerCalls].
  assert (Hpush : forall c, no_system_turn (pushToMemory user c (chatMemory st)))
    by (intros c; apply pushToMemory_Forall; [exact Hst | discriminate]).
  split.
  - apply push_all_Forall; [exact Hst |].
    destruct Hc as [(_ & -> & _) | [(_ & -> & _) | (msg & sys & _ & _ & _ & Hc)]];
      [constructor | constructor |].
    cbv zeta in Hc. destruct Hc as (_ & [(_ & ->) | (_ & _ & ->)]);
      repeat constructor; discriminate.
  - exists sent. split; [reflexivity |].
    destruct Hc as [(_ & _ & ->) | [(_ & _ & ->) | (msg & sys & _ & _ & _ & Hc)]];
      [constructor | constructor |].
    cbv zeta in Hc. destruct Hc as (-> & _).
    constructor; [| constructor].
    unfold expected_messages.
    destruct (is_empty (sanitize sys)); cbn [tl]; [| apply Hpush].
    specialize (Hpush (sanitize msg)).
    destruct (pushToMemory user (sanitize msg) (chatMemory st));
      [constructor | now inversion Hpush].
Qed.

Lemma X14_handleChat_never_stores_system_witness :
  no_system_turn (chatMemory fresh) /\
  no_system_turn
    (chatMemory (snd (handleChat (answers (Some (lit "ok")))
                        (request_of (JsString (lit "hi"))
                                    (JsString (lit "be brief")))
                        fresh))).
Proof.
  assert (H : no_system_turn (chatMemory fresh)) by constructor.
  split; [exact H |].
  exact (proj1 (@X14_handleChat_never_stores_system
                  (answers (Some (lit "ok")))
                  (request_of (JsString (lit "hi"))
                              (JsString (lit "be brief")))
                  fresh H)).
Defined.

(** X15. What the caller wrote reaches neither the buffer nor the
    provider with an angle bracket in it: when the user turns of the
    buffer are free of [<] and [>], so are they afterwards, and so are
    the user and system entries of every message list sent. *)
Theorem X15_handleChat_caller_text_clean (groq : Provider)
    (req : Req.Request) (st : Server) :
  caller_text_clean (chatMemory st) ->
  caller_text_clean (chatMemory (snd (handleChat groq req st))) /\
  exists sent,
    providerCalls (snd (handleChat groq req st)) = providerCalls st ++ sent /\
    Forall caller_text_clean sent.
Proof.
  intros Hst.
  destruct (handleChat_effect groq req st)
    as (resp & pushes & sent & E & _ & _ & Hc).
  rewrite E. cbn [snd chatMemory providerCalls].
  assert (Hpush : forall c,
             caller_text_clean (pushToMemory user (sanitize c) (chatMemory st))).
  { intros c. apply pushToMemory_Forall; [exact Hst |].
    intros _. apply sanitize_angle_free. }
  split.
  - apply push_all_Forall; [exact Hst |].
    destruct Hc as [(_ & -> & _) | [(_ & -> & _) | (msg & sys & _ & _ & _ & Hc)]];
      [constructor | constructor |].
    cbv zeta in Hc. destruct Hc as (_ & [(_ & ->) | (_ & _ & ->)]).
    + constructor; [| constructor]. intros _. apply sanitize_angle_free.
    + constructor; [intros _; apply sanitize_angle_free |].
      constructor; [| constructor]. cbn. congruence.
  - exists sent. split; [reflexivity |].
    destruct Hc as [(_ & _ & ->) | [(_ & _ & ->) | (msg & sys & _ & _ & _ & Hc)]];
      [constructor | constructor |].
    cbv zeta in Hc. destruct Hc as (-> & _).
    constructor; [| constructor].
    unfold expected_messages.
    destruct (is_empty (sanitize sys)); [apply Hpush |].
    constructor; [| apply Hpush]. intros _. apply sanitize_angle_free.
Qed.

Lemma X15_handleChat_caller_text_clean_witness :
  caller_text_clean (chatMemory fresh) /\
  caller_text_clean
    (chatMemory (snd (handleChat (answers (Some (lit "<b>ok</b>")))
                        (request_of (JsString (lit "<i>hi</i>")) JsUndefined)
                        fresh))).
Proof.
  assert (H : caller_text_clean (chatMemory fresh)) by constructor.
  split; [exact H |].
  exact (proj1 (@X15_handleChat_caller_text_clean
                  (answers (Some (lit "<b>ok</b>")))
                  (request_of (JsString (lit "<i>hi</i>")) JsUndefined)
                  fresh H)).
Defined.

(** X16. A successful exchange appends the sanitized user turn and the
    assistant turn, in this order, and keeps the last 6 turns: on a full
    buffer exactly the two oldest turns leave. *)
Theorem X16_handleChat_exchange_window (groq : Provider) (req : Req.Request)
    (msg : jsstring) (sys : option jsstring) (st : Server)
    (completion : option Groq.Completion) :
  valid_request req msg sys ->
  length (chatMemory st) <= 6 ->
  groq (expected_messages sys
          (pushToMemory user (sanitize msg) (chatMemory st)))
    = Groq.Resolves completion ->
  let aiReply := enforceMarkdownStructure
                   (or_else (first_content completion)
                            empty_response_reply) in
  let exchange := [mkTurn user (sanitize msg); mkTurn assistant aiReply] in
  chatMemory (snd (handleChat groq req st))
    = last_n 6 (chatMemory st ++ exchange) /\
  (length (chatMemory st) = 6 ->
   chatMemory (snd (handleChat groq req st))
     = skipn 2 (chatMemory st) ++ exchange).
Proof.
  intros Hv Hlen Hres aiReply exchange.
  assert (E : chatMemory (snd (handleChat groq req st))
              = last_n 6 (chatMemory st ++ exchange)).
  { rewrite (handleChat_valid groq st Hv). cbv zeta. rewrite Hres.
    cbn [snd chatMemory]. fold aiReply.
    change (pushToMemory assistant aiReply
              (pushToMemory user (sanitize msg) (chatMemory st)))
      with (push_all [(user, sanitize msg); (assistant, aiReply)]
                     (chatMemory st)).
    now rewrite push_all_window. }
  split; [exact E |].
  intros H6. rewrite E. unfold last_n.
  rewrite length_app, H6. cbn [length Nat.add Nat.sub exchange].
  rewrite skipn_app, H6. reflexivity.
Qed.

Lemma X16_handleChat_exchange_window_witness :
  let st := mkServer (repeat (mkTurn user (lit "old")) 6) [] in
  let req := request_of (JsString (lit "new")) JsUndefined in
  valid_request req (lit "new") None /\
  chatMemory (snd (handleChat (answers (Some (lit "**ok**"))) req st))
    = repeat (mkTurn user (lit "old")) 4
      ++ [mkTurn user (lit "new"); mkTurn assistant (lit "**ok**")].
Proof.
  cbv zeta.
  assert (V : valid_request (request_of (JsString (lit "new")) JsUndefined)
                (lit "new") None)
    by (split; [discriminate | reflexivity]).
  assert (L : length (chatMemory
                        (mkServer (repeat (mkTurn user (lit "old")) 6) []))
              <= 6) by (simpl; lia).
  split; [exact V |].
  exact (proj2 (@X16_handleChat_exchange_window (answers (Some (lit "**ok**")))
                  _ _ _ (mkServer (repeat (mkTurn user (lit "old")) 6) [])
                  _ V L eq_refl) eq_refl).
Defined.





(* ================================================================= *)
(** ** The earlier revision against the current one *)

(** X18. On a request that has a body the earlier revision and the
    current one agree on the status and on what is sent to the
    provider, and, unless the status is 200, on the state they leave;
    on success they differ in the reply text only.  Without a body the
    current handler answers 400 and the earlier one 500, both leaving
    the state alone. *)
Theorem X18_revisions_agree_on_traffic (groq : Provider) (st : Server) :
  (forall b : Req.Body,
     exists r_old r_new st_old st_new,
       Part000.handleChat groq (Req.mkRequest (Some b)) st
         = (Returned r_old, st_old) /\
       handleChat groq (Req.mkRequest (Some b)) st
         = (Returned r_new, st_new) /\
       status r_old = status r_new /\
       providerCalls st_old = providerCalls st_new /\
       (status r_new <> 200 -> st_old = st_new)) /\
  Part000.handleChat groq (Req.mkRequest None) st
    = (Returned (mkResponse 500 Part000.server_error_reply), st) /\
  handleChat groq (Req.mkRequest None) st
    = (Returned (mkResponse 400 invalid_request_reply), st).
Proof.
  split; [| split; reflexivity].
  intros [m sy].
  destruct (is_string m) eqn:Hm.
  2: { eexists _, _, _, _.
       split; [eapply part000_handleChat_invalid;
               [reflexivity | right; left; exact Hm] |].
       split; [apply handleChat_invalid; right; left; exact Hm |].
       repeat split. }
  destruct m as [| | b | n | s |]; try discriminate Hm.
  destruct s as [| c s'].
  { eexists _, _, _, _.
    split; [eapply part000_handleChat_invalid;
            [reflexivity | right; right; reflexivity] |].
    split; [apply handleChat_invalid; right; right; reflexivity |].
    repeat split. }
  unfold handleChat, Part000.handleChat, try_catch, body_field.
  cbn [Req.body Req.message Req.system truthy is_string is_empty negb orb].
  destruct sy as [| | b | n | s |]; cbn [truthy];
    try destruct b; try destruct (negb (Z.eqb n 0));
    try destruct (negb (is_empty s));
    cbv beta iota zeta delta
      [bind ret push Part000.push read_memory create sanitize_value throw
       chatMemory providerCalls];
    rewrite ?pushMemory_is_pushToMemory;
    try (eexists _, _, _, _; repeat split; reflexivity);
    match goal with
    | |- context [groq ?m] =>
        destruct (groq m);
        eexists _, _, _, _;
        (split; [reflexivity |]); (split; [reflexivity |]);
        (split; [reflexivity |]); (split; [reflexivity |]);
        cbn [status]; intros H; try reflexivity; now exfalso
    end.
Qed.

(** X19. The earlier revision returns and stores the provider's text as
    it is; the current one passes it through the structure enforcer.
    When that text already carries a marker, both revisions give the
    same response and leave the same state. *)
Theorem X19_part000_reply_verbatim (groq : Provider) (req : Req.Request)
    (msg : jsstring) (sys : option jsstring) (st : Server)
    (completion : option Groq.Completion) (c : jsstring) :
  valid_request req msg sys ->
  let memory := pushToMemory user (sanitize msg) (chatMemory st) in
  let messages := expected_messages sys memory in
  groq messages = Groq.Resolves completion ->
  first_content completion = Some c -> c <> [] ->
  Part000.handleChat groq req st
    = (Returned (mkResponse 200 c),
       mkServer (pushToMemory assistant c memory)
                (providerCalls st ++ [messages])) /\
  handleChat groq req st
    = (Returned (mkResponse 200 (enforceMarkdownStructure c)),
       mkServer (pushToMemory assistant (enforceMarkdownStructure c) memory)
                (providerCalls st ++ [messages])) /\
  (has_marker c ->
   handleChat groq req st = Part000.handleChat groq req st).
Proof.
  intros Hv memory messages Hres Hc Hne.
  assert (Hor : forall d, or_else (first_content completion) d = c).
  { intros d. rewrite Hc. cbn. apply is_empty_false in Hne. now rewrite Hne. }
  assert (Eold : Part000.handleChat groq req st
                 = (Returned (mkResponse 200 c),
                    mkServer (pushToMemory assistant c memory)
                             (providerCalls st ++ [messages]))).
  { rewrite (part000_handleChat_valid groq st Hv). cbv zeta.
    fold memory. fold messages. rewrite Hres. now rewrite Hor. }
  assert (Enew : handleChat groq req st
                 = (Returned (mkResponse 200 (enforceMarkdownStructure c)),
                    mkServer (pushToMemory assistant
                                (enforceMarkdownStructure c) memory)
                             (providerCalls st ++ [messages]))).
  { rewrite (handleChat_valid groq st Hv). cbv zeta.
    fold memory. fold messages. rewrite Hres. now rewrite Hor. }
  split; [exact Eold |]. split; [exact Enew |].
  intros Hm. rewrite Eold, Enew. now rewrite (has_marker_enforce Hm).
Qed.

Lemma X19_part000_reply_verbatim_witness :
  let req := request_of (JsString (lit "hi")) JsUndefined in
  valid_request req (lit "hi") None /\
  Part000.handleChat (answers (Some (lit "Fine. Thanks!"))) req fresh
    = (Returned (mkResponse 200 (lit "Fine. Thanks!")),
       mkServer [mkTurn user (lit "hi");
                 mkTurn assistant (lit "Fine. Thanks!")]
                [[mkTurn user (lit "hi")]]).
Proof.
  cbv zeta.
  assert (V : valid_request (request_of (JsString (lit "hi")) JsUndefined)
                (lit "hi") None)
    by (split; [discriminate | reflexivity]).
  assert (N : lit "Fine. Thanks!" <> []) by discriminate.
  split; [exact V |].
  exact (proj1 (@X19_part000_reply_verbatim
                  (answers (Some (lit "Fine. Thanks!"))) _ _ _ fresh _ _
                  V eq_refl eq_refl N)).
Defined.

(* ================================================================= *)
(** ** The first listing *)

(** X20. The first listing checks only that [message] is truthy.  It
    answers 400 without a provider call exactly when [message] is
    falsy; any other value, string or not, is sent on unchanged as the
    user entry, behind the fixed persona, whatever the [system] field
    holds.  The current handler answers 400 to the non-strings among
    them. *)
Theorem X20_draft_forwards_any_truthy_message (groq : Draft.Provider)
    (b : Req.Body) :
  let req := Req.mkRequest (Some b) in
  (truthy (Req.message b) = false ->
   Draft.handleChat groq req
   = (mkResponse 400 Draft.missing_reply, [])) /\
  (truthy (Req.message b) = true ->
   status (fst (Draft.handleChat groq req)) <> 400 /\
   snd (Draft.handleChat groq req)
   = [[Draft.mkTurn system (JsString Draft.persona);
       Draft.mkTurn user (Req.message b)]] /\
   (is_string (Req.message b) = false ->
    forall groq' st,
      handleChat groq' req st
      = (Returned (mkResponse 400 invalid_request_reply), st))).
Proof.
  cbv zeta. unfold Draft.handleChat, Draft.try_body, body_field.
  cbn [Req.body]. split; intros H; rewrite H; cbn [negb].
  - reflexivity.
  - split; [| split].
    + destruct (groq _) as [| [c |]]; cbn; discriminate.
    + destruct (groq _) as [| [c |]]; reflexivity.
    + intros Hs groq' st. apply handleChat_invalid. right; left. exact Hs.
Qed.

Lemma X20_draft_forwards_any_truthy_message_witness :
  truthy (JsNumber 123) = true /\
  snd (Draft.handleChat (fun _ => Groq.Rejects)
         (request_of (JsNumber 123) (JsString (lit "be brief"))))
  = [[Draft.mkTurn system (JsString Draft.persona);
      Draft.mkTurn user (JsNumber 123)]].
Proof.
  split; [reflexivity |].
  exact (proj1 (proj2 (proj2 (@X20_draft_forwards_any_truthy_message
                                (fun _ => Groq.Rejects)
                                (Req.mkBody (JsNumber 123)
                                            (JsString (lit "be brief"))))
                         eq_refl))).
Defined.



(* ================================================================= *)
(** ** The pieces of the split *)

Lemma contains_app_l (l s f : jsstring) : contains s f -> contains (l ++ s) f.
Proof.
  intros (a & b & ->). exists (l ++ a), b. now rewrite <- app_assoc.
Qed.

Lemma contains_refl (s : jsstring) : contains s s.
Proof. exists [], []. cbn. now rewrite app_nil_r. Qed.

Lemma has_separator_prefix (l r : jsstring) :
  has_separator (l ++ r) = false -> has_separator l = false.
Proof.
  induction l as [| x l IH]; [reflexivity |].
  cbn [app has_separator]. intros H. apply orb_false_iff in H.
  destruct H as [H1 H2]. rewrite (IH H2), orb_false_r.
  destruct l as [| y l']; [apply andb_false_r | exact H1].
Qed.

Lemma has_separator_extend (l : jsstring) (c : char16) (s : jsstring) :
  has_separator (l ++ [c]) = false ->
  is_sentence_end c && starts_with_space s = false ->
  has_separator (l ++ c :: firstn 1 s) = false.
Proof.
  intros H Hc. induction l as [| x l IH].
  - cbn [app has_separator].
    destruct s as [| d s']; cbn [firstn has_separator starts_with_space].
    + now rewrite andb_false_r.
    + cbn [starts_with_space] in Hc. now rewrite Hc, andb_false_r.
  - cbn [app has_separator] in *. apply orb_false_iff in H.
    destruct H as [H1 H2]. rewrite (IH H2), orb_false_r.
    destruct l as [| y l']; exact H1.
Qed.

(** Every fragment is a stretch of the text and holds no sentence
    break. *)
Lemma fragments_go_pieces (s : jsstring) :
  (forall acc f,
     has_separator (rev acc ++ firstn 1 s) = false ->
     In f (fragments_go s false acc) ->
     contains (rev acc ++ s) f /\ has_separator f = false) /\
  (forall f,
     In f (fragments_go s true []) ->
     contains s f /\ has_separator f = false).
Proof.
  induction s as [| c s' [IHF IHT]].
  - split.
    + intros acc f H [<- | []]. cbn [firstn] in H.
      rewrite app_nil_r in *. split; [apply contains_refl | exact H].
    + intros f [<- | []]. split; [now exists [], [] | reflexivity].
  - assert (F : forall acc f,
               has_separator (rev acc ++ firstn 1 (c :: s')) = false ->
               In f (fragments_go (c :: s') false acc) ->
               contains (rev acc ++ c :: s') f /\ has_separator f = false).
    { intros acc f H. cbn [firstn] in H. cbn [fragments_go andb].
      destruct (is_sentence_end c && starts_with_space s') eqn:Hsep.
      - intros [<- | Hin].
        + split; [now exists [], (c :: s') |].
          now apply has_separator_prefix in H.
        + destruct (IHT f Hin) as [Hc Hs]. split; [| exact Hs].
          change (c :: s') with ([c] ++ s'). rewrite app_assoc.
          now apply contains_app_l.
      - intros Hin.
        assert (H' : has_separator (rev (c :: acc) ++ firstn 1 s') = false).
        { cbn [rev]. rewrite <- app_assoc. cbn [app].
          now apply has_separator_extend. }
        destruct (IHF (c :: acc) f H' Hin) as [Hc Hs]. split; [| exact Hs].
        cbn [rev] in Hc. rewrite <- app_assoc in Hc. exact Hc. }
    split; [exact F |].
    intros f. cbn [fragments_go andb].
    destruct (is_space c) eqn:Hsp.
    + intros Hin. destruct (IHT f Hin) as [Hc Hs]. split; [| exact Hs].
      now apply (contains_app_l [c]).
    + intros Hin. apply (F [] f); [| exact Hin].
      cbn. now rewrite andb_false_r.
Qed.

(** X8. The bullets of a restructured text hold nothing but the text:
    the result is the heading followed by one bullet per fragment, and
    each fragment is a non-empty stretch of consecutive characters of
    the text that contains no sentence break. *)
Theorem X8_enforce_bullets_are_pieces (t : jsstring) :
  t <> [] -> ~ has_marker t ->
  exists pieces,
    enforceMarkdownStructure t = heading ++ concat (map bullet pieces) /\
    Forall (fun f => f <> [] /\ contains t f /\ has_separator f = false)
           pieces.
Proof.
  intros Hne Hno. exists (nonempty_fragments t). split.
  - destruct (enforce_cases t) as [[E _] | [[M _] | (_ & _ & E)]];
      [congruence | contradiction | exact E].
  - apply Forall_forall. intros f Hf.
    unfold nonempty_fragments in Hf. apply filter_In in Hf.
    destruct Hf as [Hin Hnz]. split.
    + apply negb_true_iff in Hnz. now apply is_empty_false.
    + apply (proj1 (fragments_go_pieces t) [] f); [| exact Hin].
      cbn [rev app]. destruct t as [| c t']; [reflexivity |].
      cbn. now rewrite andb_false_r.
Qed.

Lemma X8_enforce_bullets_are_pieces_witness :
  exists pieces,
    enforceMarkdownStructure (lit "One. Two?  Three") =
      heading ++ concat (map bullet pieces) /\
    Forall (fun f => f <> [] /\ contains (lit "One. Two?  Three") f /\
                     has_separator f = false) pieces.
Proof.
  apply (@X8_enforce_bullets_are_pieces (lit "One. Two?  Three")).
  - discriminate.
  - intros H. apply structured_spec in H. discriminate H.
Defined.

(* ================================================================= *)
(** ** The buffer beyond its capacity *)

(** X9. [pushToMemory] shifts at most once.  On a buffer of 6 or more
    turns it removes the front turn and appends the new one, so the
    length stays what it was: a buffer longer than 6 is not cut back
    to 6. *)
Theorem X9_pushToMemory_shifts_once (r : Role) (c : jsstring)
    (m : list ChatTurn) :
  6 <= length m ->
  pushToMemory r c m = tl m ++ [mkTurn r c] /\
  length (pushToMemory r c m) = length m.
Proof.
  intros H. split.
  - now apply pushToMemory_full.
  - rewrite pushToMemory_length.
    destruct (Nat.ltb_spec (length m) MAX_MEMORY_MESSAGES) as [L | L];
      [unfold MAX_MEMORY_MESSAGES in L; lia | reflexivity].
Qed.

Lemma X9_pushToMemory_shifts_once_witness :
  6 <= length (repeat (mkTurn user (lit "x")) 8) /\
  length (pushToMemory assistant (lit "y")
            (repeat (mkTurn user (lit "x")) 8)) = 8.
Proof.
  assert (H : 6 <= length (repeat (mkTurn user (lit "x")) 8))
    by (simpl; lia).
  split; [exact H |].
  exact (proj2 (@X9_pushToMemory_shifts_once assistant (lit "y") _ H)).
Defined.
